(** * wolfictl [pkg/cli/scan.go]: findings tree aggregation and rendering

    A shallow embedding of the [scan] sub-command of wolfictl: the
    aggregation of scanner findings into a two-level map
    ([newFindingsTree]), the tree renderer ([render]) with its identifier,
    hyperlink and fix-annotation helpers, and the command loop of [Scan].

    Go maps are [gmap]s; indexing a map at an absent key yields the zero
    value of the element type, which is what [!!!] does with the
    [Inhabited] instances used below.  Go strings are byte strings and
    [<] on them is byte-wise lexicographic, which is [String.ltb]. *)

From stdpp Require Import gmap strings list fin_maps sorting.

(** ** Data model of package [scan] (the types the command consumes) *)

Module scan.

Module Package.
Record t : Type := mk
      { ID : string;
        Name : string;
        Version : string;
        Type_ : string;
        Location : string }.

(** The zero value of the struct. *)
Definition zero : t := mk "" "" "" "" "".

#[global] Instance inhabited : Inhabited t := populate zero.
#[global] Instance package_eq_dec : EqDecision t.
Proof. solve_decision. Defined.
End Package.

Module Vulnerability.
Record t : Type := mk
      { ID : string;
        Aliases : list string;
        Severity : string;
        FixedVersion : string }.

#[global] Instance vulnerability_eq_dec : EqDecision t.
Proof. solve_decision. Defined.
End Vulnerability.

Module Finding.
Record t : Type := mk
      { Package : Package.t;
        Vulnerability : Vulnerability.t }.

#[global] Instance finding_eq_dec : EqDecision t.
Proof. solve_decision. Defined.
End Finding.

End scan.

Abbreviation Package := scan.Package.t.
Abbreviation Vulnerability := scan.Vulnerability.t.
Abbreviation Finding := scan.Finding.t.

(** The grouping key of a finding. *)
Definition loc_of (f : Finding) : string :=
  scan.Package.Location (scan.Finding.Package f).
Definition pid_of (f : Finding) : string :=
  scan.Package.ID (scan.Finding.Package f).
Definition vid_of (f : Finding) : string :=
  scan.Vulnerability.ID (scan.Finding.Vulnerability f).

(** ** [findingsTree] and [newFindingsTree] *)

Record findingsTree : Type := mkTree
  { findingsByPackageByLocation : gmap string (gmap string (list Finding));
    packagesByID : gmap string Package }.

(** One iteration of the [for _, f := range findings] loop. *)
Definition add_finding (t : findingsTree) (f : Finding) : findingsTree :=
  let loc := loc_of f in
  let packageID := pid_of f in
  let packagesByID' := <[packageID := scan.Finding.Package f]> (packagesByID t) in
  let tree := findingsByPackageByLocation t in
  let tree1 :=
    match tree !! loc with
    | Some _ => tree
    | None => <[loc := ∅]> tree
    end in
  let inner : gmap string (list Finding) := tree1 !!! loc in
  let tree2 := <[loc := <[packageID := (inner !!! packageID) ++ [f]]> inner]> tree1 in
  mkTree tree2 packagesByID'.

Definition newFindingsTree (findings : list Finding) : findingsTree :=
  foldl add_finding (mkTree ∅ ∅) findings.

(** The bucket of a (location, package ID) pair, read the way Go reads
    [tree[loc][id]]: the nil slice when a key is absent. *)
Definition bucket (t : findingsTree) (l p : string) : list Finding :=
  (findingsByPackageByLocation t !!! l) !!! p.

(** Every bucket of the tree, location by location. *)
Definition buckets_of (m : gmap string (list Finding)) : list (list Finding) :=
  (map_to_list m).*2.
Definition all_buckets (t : findingsTree) : list (list Finding) :=
  mjoin (buckets_of <$> (map_to_list (findingsByPackageByLocation t)).*2).

(** The findings met by iterating over every bucket. *)
Definition all_findings (t : findingsTree) : list Finding := mjoin (all_buckets t).

(** The values of a map, each expanded by [g], in iteration order. *)
Definition flat_values {V B : Type} (g : V → list B) (m : gmap string V) : list B :=
  (map_to_list m).*2 ≫= g.

(** The number of findings found by iterating over every bucket. *)
Definition total_findings (t : findingsTree) : nat :=
  sum_list (length <$> all_buckets t).

(** ** Sorting *)

(** [sort.SliceStable] with a [less] function: a stable sort.  The result
    of a stable sort is determined by [less] and the input, so a stable
    insertion sort stands for it. *)
Section SliceStable.
Context {A : Type} (less : A → A → bool).

Fixpoint stable_insert (x : A) (l : list A) : list A :=
    match l with
    | [] => [x]
    | y :: l' => if less y x then y :: stable_insert x l' else x :: y :: l'
    end.

Definition SliceStable (l : list A) : list A := foldr stable_insert [] l.

(** [x] may stay in front of [y]: the order between neighbours that the
    sort establishes. *)
Definition not_after : relation A := λ x y, less y x = false.
End SliceStable.

(** [sort.Strings]: increasing byte order.  The order is total and
    antisymmetric, so the result is the one sorted arrangement of the
    input whatever algorithm computes it. *)
Definition sort_Strings (x : list string) : list string :=
  merge_sort String.le x.

Definition less_Name (a b : Package) : bool :=
  String.ltb (scan.Package.Name a) (scan.Package.Name b).
Definition less_VulnerabilityID (a b : Finding) : bool :=
  String.ltb (vid_of a) (vid_of b).

(** ** Map iteration order

    [lo.Keys] ranges over a Go map, whose iteration order is unspecified
    and may differ between two iterations of the same map.  The order a
    call of [render] happens to see is an explicit argument: the
    enumeration of the locations and, for each location, of its package
    IDs. *)
Record MapOrder : Type := mkOrder
  { locationKeys : list string;
    packageKeys : string → list string }.

Definition keys_of {V} (m : gmap string V) : list string := (map_to_list m).*1.

(** An order is one the runtime can produce for the tree when each
    enumeration lists the keys of its map, each once. *)
Definition valid_order (ord : MapOrder) (t : findingsTree) : Prop :=
  locationKeys ord ≡ₚ keys_of (findingsByPackageByLocation t) ∧
  map_Forall (λ loc inner, packageKeys ord loc ≡ₚ keys_of inner)
             (findingsByPackageByLocation t).

#[global] Instance valid_order_dec ord t : Decision (valid_order ord t).
Proof. unfold valid_order. apply _. Defined.

(** ** Styles and terminal capabilities (packages lipgloss and termlink) *)

Record Style : Type := NewStyle { Foreground : string }.

Definition styleSubtle : Style := NewStyle "#999999".
Definition styleNegligible : Style := NewStyle "#999999".
Definition styleLow : Style := NewStyle "#00ff00".
Definition styleMedium : Style := NewStyle "#ffff00".
Definition styleHigh : Style := NewStyle "#ff9900".
Definition styleCritical : Style := NewStyle "#ff0000".

(** [strings.HasPrefix(s, prefix)]. *)
Definition HasPrefix (s prefix : string) : bool := String.prefix prefix s.

Definition newline : string := String (Ascii.ascii_of_nat 10) "".

(** [strings.Join]. *)
Fixpoint Join (elems : list string) (sep : string) : string :=
  match elems with
  | [] => ""
  | [x] => x
  | x :: rest => x +:+ sep +:+ Join rest sep
  end.

(** [s] occurs in [t] as a substring. *)
Definition Substring (s t : string) : Prop :=
  ∃ pre post, t = pre +:+ s +:+ post.

(** The lines of the report, before they are formatted: one constructor
    per [lines = append(lines, line)] of [render]. *)
Inductive line : Type :=
  | LocationLine (treeStem location : string)
  | PackageLine (verticalLine : string) (pkg : Package)
  | FindingLine (verticalLine : string) (f : Finding)
  | EndLine (verticalLine : string).

Section Render.
(** [lipgloss.Style.Render], [termlink.Link] and the value of
      [termlink.SupportsHyperlinks()] the process started with. *)
Variable Render : Style → string → string.
Variable Link : string → string → string.
Variable termSupportsHyperlinks : bool.

Definition renderSeverity (severity : string) : string :=
    if String.eqb severity "Negligible" then Render styleNegligible severity
    else if String.eqb severity "Low" then Render styleLow severity
    else if String.eqb severity "Medium" then Render styleMedium severity
    else if String.eqb severity "High" then Render styleHigh severity
    else if String.eqb severity "Critical" then Render styleCritical severity
    else severity.

Definition hyperlinkVulnerabilityID (id : string) : string :=
    if negb termSupportsHyperlinks then id
    else if HasPrefix id "CVE-" then
      Link id ("https://nvd.nist.gov/vuln/detail/" +:+ id)
    else if HasPrefix id "GHSA-" then
      Link id ("https://github.com/advisories/" +:+ id)
    else id.

(** The [for _, alias := range vuln.Aliases] loop with its [break];
      [cveID] starts as the empty string. *)
Fixpoint scan_aliases (aliases : list string) (cveID : string) : string :=
    match aliases with
    | [] => cveID
    | alias :: rest =>
        if HasPrefix alias "CVE-" then alias else scan_aliases rest cveID
    end.

Definition renderVulnerabilityID (vuln : Vulnerability) : string :=
    let cveID := scan_aliases (scan.Vulnerability.Aliases vuln) "" in
    if String.eqb cveID "" then
      hyperlinkVulnerabilityID (scan.Vulnerability.ID vuln)
    else
      hyperlinkVulnerabilityID cveID +:+ " " +:+
      Render styleSubtle (hyperlinkVulnerabilityID (scan.Vulnerability.ID vuln)).

Definition renderFixedIn (vuln : Vulnerability) : string :=
    if String.eqb (scan.Vulnerability.FixedVersion vuln) "" then ""
    else " fixed in " +:+ scan.Vulnerability.FixedVersion vuln.

(** The text of each line: the [fmt.Sprintf] calls of [render]. *)
Definition show_line (ln : line) : string :=
    match ln with
    | LocationLine treeStem location => treeStem +:+ "📄 " +:+ location
    | PackageLine verticalLine pkg =>
        verticalLine +:+ "       📦 " +:+ scan.Package.Name pkg +:+ " " +:+
        scan.Package.Version pkg +:+ " " +:+
        Render styleSubtle ("(" +:+ scan.Package.Type_ pkg +:+ ")")
    | FindingLine verticalLine f =>
        let vuln := scan.Finding.Vulnerability f in
        verticalLine +:+ "           " +:+
        renderSeverity (scan.Vulnerability.Severity vuln) +:+ " " +:+
        renderVulnerabilityID vuln +:+ renderFixedIn vuln
    | EndLine verticalLine => verticalLine
    end.
End Render.

(** ** [render]

    The receiver is a copy of the struct, but its two maps are references
    and a slice read from the map shares its backing array with the map's
    entry: [sort.SliceStable(findings, ...)] reorders the bucket stored in
    the tree.  The tree is therefore threaded through the walk and
    returned with the output. *)

(** [sort.SliceStable] applied to the slice at [tree[location][id]]: the
    entry is reordered where it exists, and nothing is created where it
    does not (sorting the nil slice). *)
Definition sort_bucket (location id : string)
    (tree : gmap string (gmap string (list Finding)))
    : gmap string (gmap string (list Finding)) :=
  alter (alter (SliceStable less_VulnerabilityID) id) location tree.

(** The body of [for _, pkg := range packages]. *)
Definition render_package (verticalLine location : string)
    (st : list line * gmap string (gmap string (list Finding))) (pkg : Package)
    : list line * gmap string (gmap string (list Finding)) :=
  let lines := st.1 ++ [PackageLine verticalLine pkg] in
  let findings :=
    SliceStable less_VulnerabilityID ((st.2 !!! location) !!! scan.Package.ID pkg) in
  let tree := sort_bucket location (scan.Package.ID pkg) st.2 in
  (lines ++ (FindingLine verticalLine <$> findings), tree).

(** The body of [for i, location := range locations]. *)
Definition render_location (ord : MapOrder) (byID : gmap string Package)
    (n i : nat) (location : string)
    (st : list line * gmap string (gmap string (list Finding)))
    : list line * gmap string (gmap string (list Finding)) :=
  let '(treeStem, verticalLine) :=
    if Nat.eqb i (n - 1) then ("└── ", " ") else ("├── ", "│") in
  let lines := st.1 ++ [LocationLine treeStem location] in
  let packageIDs := packageKeys ord location in
  let packages := (λ id, byID !!! id) <$> packageIDs in
  let packages := SliceStable less_Name packages in
  let st' := foldl (render_package verticalLine location) (lines, st.2) packages in
  (st'.1 ++ [EndLine verticalLine], st'.2).

Fixpoint render_locations (ord : MapOrder) (byID : gmap string Package)
    (n i : nat) (locations : list string)
    (st : list line * gmap string (gmap string (list Finding)))
    : list line * gmap string (gmap string (list Finding)) :=
  match locations with
  | [] => st
  | location :: rest =>
      render_locations ord byID n (S i) rest
        (render_location ord byID n i location st)
  end.

(** The lines [render] collects, and the tree as the call leaves it. *)
Definition render_walk (ord : MapOrder) (t : findingsTree)
    : list line * findingsTree :=
  let locations := sort_Strings (locationKeys ord) in
  let st := render_locations ord (packagesByID t) (length locations) 0
              locations ([], findingsByPackageByLocation t) in
  (st.1, mkTree st.2 (packagesByID t)).

Definition render_lines (ord : MapOrder) (t : findingsTree) : list line :=
  (render_walk ord t).1.

Definition tree_after_render (ord : MapOrder) (t : findingsTree) : findingsTree :=
  (render_walk ord t).2.

Definition render (Render : Style → string → string)
    (Link : string → string → string) (termSupportsHyperlinks : bool)
    (ord : MapOrder) (t : findingsTree) : string :=
  Join (show_line Render Link termSupportsHyperlinks <$> render_lines ord t) newline.

(** ** The command loop of [Scan]

    [RunE] opens, scans and reports each argument in turn.  The file
    system and the scanner are outside this package: they act on a world
    state, and every call the loop makes is recorded in a trace. *)

Inductive event : Type :=
  | EvOpen (path : string)
  | EvScan (path : string)
  | EvClose (path : string)
  | EvPrintln (text : string).

(** The three errors [RunE] can return; [cause] is the error value of the
    failing call. *)
Inductive error (E : Type) : Type :=
  | ErrOpenFailed (cause : E)   (* "failed to open apk file: %w" *)
  | ErrScanner (cause : E)      (* the error of [scan.APK], as it is *)
  | ErrFindingsFound.           (* "more than 0 vulnerabilities found" *)
Arguments ErrOpenFailed {E} cause.
Arguments ErrScanner {E} cause.
Arguments ErrFindingsFound {E}.

Record scanParams : Type := mkParams { requireZeroFindings : bool }.

Section Scan.
Variable World File E : Type.
(** [os.Open], [scan.APK] and [Close] of the opened file. *)
Variable os_Open : string → World → World * (File + E).
Variable scan_APK : File → World → World * (list Finding + E).
Variable file_Close : File → World → World.
(** [path.Base]. *)
Variable path_Base : string → string.
(** The iteration orders the runtime picks for the maps of this call. *)
Variable iteration : World → MapOrder.
Variable Render : Style → string → string.
Variable Link : string → string → string.
Variable termSupportsHyperlinks : bool.

Record state : Type := mkState { world : World; trace : list event }.

Definition emit (ev : event) (w : World) (st : state) : state :=
  mkState w (trace st ++ [ev]).

(** The body of [RunE]: the [for _, arg := range args] loop; [None] is
    the [nil] error. *)
Fixpoint RunE (p : scanParams) (args : list string) (st : state)
    : state * option (error E) :=
  match args with
  | [] => (st, None)
  | arg :: rest =>
      let apkFilePath := arg in
      match os_Open apkFilePath (world st) with
      | (w, inr err) => (emit (EvOpen apkFilePath) w st, Some (ErrOpenFailed err))
      | (w, inl apkFile) =>
          let st := emit (EvOpen apkFilePath) w st in
          let st := emit (EvPrintln (path_Base apkFilePath)) (world st) st in
          match scan_APK apkFile (world st) with
          | (w, inr err) => (emit (EvScan apkFilePath) w st, Some (ErrScanner err))
          | (w, inl findings) =>
              let st := emit (EvScan apkFilePath) w st in
              let st := emit (EvClose apkFilePath) (file_Close apkFile (world st)) st in
              let st :=
                if Nat.eqb (length findings) 0 then
                  emit (EvPrintln "✅ No vulnerabilities found") (world st) st
                else
                  let tree := newFindingsTree findings in
                  emit (EvPrintln (render Render Link termSupportsHyperlinks
                                     (iteration (world st)) tree))
                       (world st) st in
              if requireZeroFindings p && Nat.ltb 0 (length findings) then
                (st, Some ErrFindingsFound)
              else RunE p rest st
          end
      end
  end.

(** The paths the run opened, and those it scanned, in order. *)
Definition opened (tr : list event) : list string :=
  omap (λ ev, match ev with EvOpen path => Some path | _ => None end) tr.
Definition scanned (tr : list event) : list string :=
  omap (λ ev, match ev with EvScan path => Some path | _ => None end) tr.
End Scan.

(** ** Reading the rendered lines back as a tree

    The report is a flat list of lines; its nodes are recovered from it:
    a location line opens a location node, a package line opens a package
    node under the current location, and a finding line belongs to the
    current package. *)

Definition node : Type := string * list (Package * list Finding).

(** Lines are read last to first: a finding line is kept until the
    package line above it is met, a package node until the location line
    above it is met; the line that closes a location starts afresh. *)
Definition read_line (ln : line)
    (acc : list Finding * list (Package * list Finding) * list node)
    : list Finding * list (Package * list Finding) * list node :=
  let '(fs, pkgs, nodes) := acc in
  match ln with
  | FindingLine _ f => (f :: fs, pkgs, nodes)
  | PackageLine _ pkg => ([], (pkg, fs) :: pkgs, nodes)
  | LocationLine _ location => ([], [], (location, pkgs) :: nodes)
  | EndLine _ => ([], [], nodes)
  end.

Definition nodes_of (lines : list line) : list node :=
  (foldr read_line ([], [], []) lines).2.


(** ** Concrete collaborators, for evaluating the definitions

    A terminal without colours, where [Render] returns its text as it
    is, and the OSC 8 escape sequence for a hyperlink. *)
Definition plain_Render (_ : Style) (text : string) : string := text.

Definition esc : string := String (Ascii.ascii_of_nat 27) "".
Definition bel : string := String (Ascii.ascii_of_nat 7) "".
Definition osc8_Link (text url : string) : string :=
  esc +:+ "]8;;" +:+ url +:+ bel +:+ text +:+ esc +:+ "]8;;" +:+ bel.

Definition mkFinding (location id name version vid : string) : Finding :=
  scan.Finding.mk (scan.Package.mk id name version "apk" location)
                  (scan.Vulnerability.mk vid [] "High" "").

(** A file system where every path opens and a scanner that finds one
    vulnerability in [b.apk] and none elsewhere; the world is the number
    of files closed so far. *)
Definition open_any (path : string) (w : nat) : nat * (string + string) :=
  (w, inl path).
Definition scan_b (file : string) (w : nat) : nat * (list Finding + string) :=
  (w, inl (if String.eqb file "b.apk"
           then [mkFinding "/bin/b" "p" "lib" "1.0" "CVE-2024-0001"] else [])).
Definition close_count (_ : string) (w : nat) : nat := S w.
Definition fixed_iteration (_ : nat) : MapOrder := mkOrder ["/bin/b"] (λ _, ["p"]).
Definition run_example (requireZero : bool) (args : list string)
    : state nat * option (error string) :=
  RunE nat string string open_any scan_b close_count id fixed_iteration
       plain_Render osc8_Link false (mkParams requireZero) args (mkState nat 0 []).

(** Two findings at [/bin/a] and [/bin/b], in both input orders, with the
    two orders in which the runtime can enumerate the locations. *)
Definition two_locations : list Finding :=
  [mkFinding "/bin/b" "p2" "foo" "2.0" "CVE-2024-0002";
   mkFinding "/bin/a" "p1" "bar" "1.0" "CVE-2024-0001"].
Definition packages_of_location (location : string) : list string :=
  if String.eqb location "/bin/a" then ["p1"] else ["p2"].
Definition order_b_a : MapOrder := mkOrder ["/bin/b"; "/bin/a"] packages_of_location.



(** One package with three findings, two of which share the vulnerability
    ID and differ in the fixed version. *)
Definition one_bucket : list Finding :=
  [scan.Finding.mk (scan.Package.mk "p" "lib" "1.0" "apk" "/bin/a")
     (scan.Vulnerability.mk "GHSA-2" [] "High" "1.1");
   scan.Finding.mk (scan.Package.mk "p" "lib" "1.0" "apk" "/bin/a")
     (scan.Vulnerability.mk "GHSA-1" [] "Low" "1.2");
   scan.Finding.mk (scan.Package.mk "p" "lib" "1.0" "apk" "/bin/a")
     (scan.Vulnerability.mk "GHSA-2" [] "High" "1.3")].
Definition order_one_bucket : MapOrder := mkOrder ["/bin/a"] (λ _, ["p"]).

(** ** The report as nested nodes

    What the walk of [render] amounts to, written as nested maps over the
    buckets of the tree the call started from. *)

Definition sorted_packages (ord : MapOrder) (t : findingsTree) (location : string)
    : list Package :=
  SliceStable less_Name ((λ id, packagesByID t !!! id) <$> packageKeys ord location).

Definition package_node (t : findingsTree) (location : string) (pkg : Package)
    : Package * list Finding :=
  (pkg, SliceStable less_VulnerabilityID (bucket t location (scan.Package.ID pkg))).

Definition report_nodes (ord : MapOrder) (t : findingsTree) : list node :=
  (λ location, (location, package_node t location <$> sorted_packages ord t location))
    <$> sort_Strings (locationKeys ord).


(** ** The walk of [render], taken apart

    The lines of one package, of one location and of all locations, with
    the findings read from a fixed tree [init]; the buckets the walk sorts
    in place, in the order it reaches them; and the reading of a bucket
    that tells an absent entry from an empty one. *)

Abbreviation sort_findings := (SliceStable less_VulnerabilityID).

Definition package_block (verticalLine : string)
    (init : gmap string (gmap string (list Finding))) (location : string)
    (pkg : Package) : list line :=
  PackageLine verticalLine pkg ::
  (FindingLine verticalLine <$>
     sort_findings ((init !!! location) !!! scan.Package.ID pkg)).

Definition packages_at (ord : MapOrder) (byID : gmap string Package)
    (location : string) : list Package :=
  SliceStable less_Name ((λ id, byID !!! id) <$> packageKeys ord location).

Definition location_block (ord : MapOrder) (byID : gmap string Package)
    (init : gmap string (gmap string (list Finding)))
    (n i : nat) (location : string) : list line :=
  let '(treeStem, verticalLine) :=
    if Nat.eqb i (n - 1) then ("└── ", " ") else ("├── ", "│") in
  LocationLine treeStem location ::
  (packages_at ord byID location ≫= package_block verticalLine init location) ++
  [EndLine verticalLine].

Fixpoint location_blocks (ord : MapOrder) (byID : gmap string Package)
    (init : gmap string (gmap string (list Finding)))
    (n i : nat) (locations : list string) : list line :=
  match locations with
  | [] => []
  | location :: rest =>
      location_block ord byID init n i location ++
      location_blocks ord byID init n (S i) rest
  end.

Definition visits (ord : MapOrder) (byID : gmap string Package)
    (locations : list string) : list (string * string) :=
  locations ≫= λ location,
    (λ pkg, (location, scan.Package.ID pkg)) <$> packages_at ord byID location.

Definition sort_visited (visited : list (string * string))
    (tree : gmap string (gmap string (list Finding)))
    : gmap string (gmap string (list Finding)) :=
  foldl (λ tr lp, sort_bucket lp.1 lp.2 tr) tree visited.

Definition entry (tree : gmap string (gmap string (list Finding)))
    (l p : string) : option (list Finding) :=
  tree !! l ≫= (λ inner, inner !! p).

(** Every bucket of the tree sorted by vulnerability ID. *)
Definition sort_every_bucket (tree : gmap string (gmap string (list Finding)))
    : gmap string (gmap string (list Finding)) :=
  (λ inner : gmap string (list Finding), sort_findings <$> inner) <$> tree.

(** Two states of the tree whose buckets agree once sorted. *)
Definition same_sorted (cur init : gmap string (gmap string (list Finding))) : Prop :=
  ∀ l p, sort_findings ((cur !!! l) !!! p) = sort_findings ((init !!! l) !!! p).

(** ** Further observations of the lines and of the trace *)

(** What a line is, by kind. *)
Definition stem_of (ln : line) : option string :=
  match ln with LocationLine treeStem _ => Some treeStem | _ => None end.
Definition package_of (ln : line) : option Package :=
  match ln with PackageLine _ pkg => Some pkg | _ => None end.
Definition finding_of (ln : line) : option Finding :=
  match ln with FindingLine _ f => Some f | _ => None end.
Definition end_of (ln : line) : option string :=
  match ln with EndLine verticalLine => Some verticalLine | _ => None end.

(** The connectors of the report: for each location line its tree stem
    and the vertical markers of the lines under it, read last to first as
    [nodes_of] does. *)
Definition read_connector (ln : line)
    (acc : list string * list (string * list string))
    : list string * list (string * list string) :=
  match ln with
  | LocationLine treeStem _ => ([], (treeStem, acc.1) :: acc.2)
  | PackageLine verticalLine _ => (verticalLine :: acc.1, acc.2)
  | FindingLine verticalLine _ => (verticalLine :: acc.1, acc.2)
  | EndLine verticalLine => ([verticalLine], acc.2)
  end.

Definition connectors_of (lines : list line) : list (string * list string) :=
  (foldr read_connector ([], []) lines).2.

(** A location block is drawn with the branch connector and the vertical
    bar, or with the terminal connector and a space. *)
Definition connector_ok (c : string * list string) : Prop :=
  c.2 ≠ [] ∧
  ((c.1 = "├── " ∧ Forall (λ m, m = "│") c.2) ∨
   (c.1 = "└── " ∧ Forall (λ m, m = " ") c.2)).

(** A terminal with colours: the text between the style's colour, as an
    escape sequence, and a reset. *)
Definition colour_Render (style : Style) (text : string) : string :=
  esc +:+ "[38;2;" +:+ Foreground style +:+ "m" +:+ text +:+ esc +:+ "[0m".


(** The files the run closed, in order. *)
Definition closed (tr : list event) : list string :=
  omap (λ ev, match ev with EvClose path => Some path | _ => None end) tr.

(** * Properties *)

(** ** Byte order on strings *)


Lemma ltb_asym (a b : string) : String.ltb a b = true → String.ltb b a = false.
Proof.
  unfold String.ltb. rewrite (String.compare_antisym a b).
  destruct (String.compare b a); simpl; congruence.
Qed.


(** ** Stable sorting *)

Section SliceStable_facts.
Context {A : Type} (less : A → A → bool).
Hypothesis less_asym : ∀ x y, less x y = true → less y x = false.

Lemma stable_insert_Permutation (x : A) (l : list A) :
  stable_insert less x l ≡ₚ x :: l.
Proof.
  induction l as [|y l IH]; simpl; [done|].
  destruct (less y x); [|done].
  rewrite IH. apply perm_swap.
Qed.

Lemma SliceStable_Permutation (l : list A) : SliceStable less l ≡ₚ l.
Proof.
  induction l as [|x l IH]; simpl; [done|].
  by rewrite stable_insert_Permutation, IH.
Qed.


Lemma stable_insert_Sorted (x : A) (l : list A) :
  Sorted (not_after less) l → Sorted (not_after less) (stable_insert less x l).
Proof.
  induction l as [|y l IH]; simpl; intros Hs.
  - by repeat constructor.
  - destruct (less y x) eqn:Hyx.
    + apply Sorted_inv in Hs as [Hs Hhd]. constructor; [by apply IH|].
      destruct l as [|z l]; simpl.
      * constructor. by apply less_asym.
      * destruct (less z x); constructor.
        -- by inversion Hhd.
        -- by apply less_asym.
    + constructor; [done|]. by constructor.
Qed.

Lemma SliceStable_Sorted (l : list A) : Sorted (not_after less) (SliceStable less l).
Proof.
  induction l as [|x l IH]; simpl; [constructor|].
  by apply stable_insert_Sorted.
Qed.

(** Sorting what is sorted already changes nothing. *)
Lemma SliceStable_sorted_id (l : list A) :
  Sorted (not_after less) l → SliceStable less l = l.
Proof.
  induction l as [|x l IH]; simpl; [done|].
  intros [Hs Hhd]%Sorted_inv. rewrite (IH Hs).
  destruct Hhd as [|y l Hxy]; simpl; [done|].
  unfold not_after in Hxy. by rewrite Hxy.
Qed.

Lemma SliceStable_idemp (l : list A) :
  SliceStable less (SliceStable less l) = SliceStable less l.
Proof. apply SliceStable_sorted_id, SliceStable_Sorted. Qed.

(** Stability: elements none of which is [less] than another keep the
    order they had. *)
Section stable.
Context (P : A → Prop) `{!∀ x, Decision (P x)}.
Hypothesis P_tied : ∀ x y, P x → P y → less x y = false.


End stable.
End SliceStable_facts.

(** ** The aggregator *)

Lemma newFindingsTree_snoc (F : list Finding) (f : Finding) :
  newFindingsTree (F ++ [f]) = add_finding (newFindingsTree F) f.
Proof. unfold newFindingsTree. by rewrite foldl_snoc. Qed.

(** The two map updates of one iteration, as a single update of the
    location's entry. *)
Lemma add_finding_tree (t : findingsTree) (f : Finding) :
  findingsByPackageByLocation (add_finding t f) =
  <[loc_of f :=
      <[pid_of f := bucket t (loc_of f) (pid_of f) ++ [f]]>
        (findingsByPackageByLocation t !!! loc_of f)]>
    (findingsByPackageByLocation t).
Proof.
  unfold add_finding, bucket; simpl.
  destruct (findingsByPackageByLocation t !! loc_of f) as [inner|] eqn:Hl; [done|].
  rewrite lookup_total_insert_eq, insert_insert_eq.
  by rewrite (lookup_total_alt (findingsByPackageByLocation t)), Hl.
Qed.

Lemma add_finding_packages (t : findingsTree) (f : Finding) :
  packagesByID (add_finding t f) =
  <[pid_of f := scan.Finding.Package f]> (packagesByID t).
Proof. done. Qed.

Lemma bucket_add_finding (t : findingsTree) (f : Finding) (l p : string) :
  bucket (add_finding t f) l p =
  bucket t l p ++ (if decide (loc_of f = l ∧ pid_of f = p) then [f] else []).
Proof.
  unfold bucket at 1. rewrite add_finding_tree.
  destruct (decide (loc_of f = l)) as [<-|Hl].
  - rewrite lookup_total_insert_eq.
    destruct (decide (pid_of f = p)) as [<-|Hp].
    + rewrite lookup_total_insert_eq. by rewrite decide_True.
    + rewrite lookup_total_insert_ne by done.
      rewrite decide_False by tauto. by rewrite app_nil_r.
  - rewrite lookup_total_insert_ne by done.
    rewrite decide_False by tauto. by rewrite app_nil_r.
Qed.

(** A bucket holds the findings that carry its two keys, in input order. *)
Lemma bucket_newFindingsTree (F : list Finding) (l p : string) :
  bucket (newFindingsTree F) l p =
  filter (λ f, loc_of f = l ∧ pid_of f = p) F.
Proof.
  induction F as [|f F IH] using rev_ind; [done|].
  rewrite newFindingsTree_snoc, bucket_add_finding, IH, filter_app.
  done.
Qed.

(** The values of a map, flattened, one key taken apart. *)
Section map_values.
Context {V B : Type} `{!Inhabited V} (g : V → list B).
Hypothesis g_default : g inhabitant = [].

Lemma flat_values_insert (m : gmap string V) (k : string) (v : V) :
  flat_values g (<[k := v]> m) ≡ₚ g v ++ flat_values g (delete k m).
Proof.
  unfold flat_values. rewrite <- insert_delete_eq.
  rewrite map_to_list_insert by apply lookup_delete_eq. done.
Qed.

Lemma flat_values_lookup (m : gmap string V) (k : string) :
  flat_values g m ≡ₚ g (m !!! k) ++ flat_values g (delete k m).
Proof.
  unfold flat_values. rewrite lookup_total_alt.
  destruct (m !! k) as [v|] eqn:Hk; simpl.
  - by rewrite <- (map_to_list_delete m k v Hk).
  - by rewrite g_default, delete_id.
Qed.
End map_values.

Lemma all_findings_flat (t : findingsTree) :
  all_findings t = flat_values (flat_values id) (findingsByPackageByLocation t).
Proof.
  unfold all_findings, all_buckets, flat_values.
  induction ((map_to_list (findingsByPackageByLocation t)).*2) as [|m ms IH];
    [done|].
  rewrite fmap_cons, bind_cons, <- IH. simpl. rewrite join_app.
  f_equal. unfold buckets_of.
  induction ((map_to_list m).*2) as [|b bs IHb]; [done|].
  simpl. by rewrite IHb.
Qed.

Lemma flat_values_default {V B : Type} (g : V → list B) :
  flat_values g (inhabitant : gmap string V) = [].
Proof. unfold flat_values. change inhabitant with (∅ : gmap string V). by rewrite map_to_list_empty. Qed.

Lemma nil_slice_default : id (inhabitant : list Finding) = [].
Proof. done. Qed.

Lemma all_findings_add_finding (t : findingsTree) (f : Finding) :
  all_findings (add_finding t f) ≡ₚ all_findings t ++ [f].
Proof.
  rewrite !all_findings_flat, add_finding_tree.
  rewrite flat_values_insert.
  rewrite (flat_values_lookup (flat_values id) (flat_values_default id)
             (findingsByPackageByLocation t) (loc_of f)).
  rewrite flat_values_insert.
  rewrite (flat_values_lookup id nil_slice_default
             (findingsByPackageByLocation t !!! loc_of f) (pid_of f)).
  unfold bucket. simpl.
  rewrite <- !(assoc_L (++)).
  apply Permutation_app_head.
  rewrite (assoc_L (++) [f]).
  by rewrite (Permutation_app_comm [f]), <- (assoc_L (++)), (Permutation_app_comm [f]).
Qed.

Lemma all_findings_newFindingsTree (F : list Finding) :
  all_findings (newFindingsTree F) ≡ₚ F.
Proof.
  induction F as [|f F IH] using rev_ind; [done|].
  by rewrite newFindingsTree_snoc, all_findings_add_finding, IH.
Qed.

Lemma total_findings_length (t : findingsTree) :
  total_findings t = length (all_findings t).
Proof. unfold total_findings, all_findings. by rewrite length_join. Qed.

(** Every entry of the tree is the bucket read at its two keys. *)
Lemma tree_entry_bucket (t : findingsTree) (l p : string)
    (inner : gmap string (list Finding)) (fs : list Finding) :
  findingsByPackageByLocation t !! l = Some inner → inner !! p = Some fs →
  bucket t l p = fs.
Proof.
  intros Hl Hp. unfold bucket.
  by rewrite (lookup_total_correct _ _ _ Hl), (lookup_total_correct _ _ _ Hp).
Qed.

(** The package recorded for an ID is the one of the last finding of the
    input that carries the ID. *)
Lemma packagesByID_newFindingsTree (F : list Finding) (id : string) :
  packagesByID (newFindingsTree F) !! id =
  scan.Finding.Package <$> last (filter (λ f, pid_of f = id) F).
Proof.
  induction F as [|f F IH] using rev_ind; [done|].
  rewrite newFindingsTree_snoc, add_finding_packages, filter_app.
  rewrite filter_cons, filter_nil.
  destruct (decide (pid_of f = id)) as [<-|Hne].
  - by rewrite lookup_insert_eq, last_snoc.
  - by rewrite lookup_insert_ne, app_nil_r.
Qed.

(** ** The walk of [render] *)

Lemma less_VulnerabilityID_asym (x y : Finding) :
  less_VulnerabilityID x y = true → less_VulnerabilityID y x = false.
Proof. apply ltb_asym. Qed.


Lemma sort_findings_idemp (fs : list Finding) :
  sort_findings (sort_findings fs) = sort_findings fs.
Proof. apply SliceStable_idemp, less_VulnerabilityID_asym. Qed.

(** Reading a bucket after one bucket was sorted in place. *)
Lemma sort_bucket_read (location id : string)
    (cur : gmap string (gmap string (list Finding))) (l p : string) :
  (sort_bucket location id cur !!! l) !!! p =
  if decide (location = l ∧ id = p) then sort_findings ((cur !!! l) !!! p)
  else (cur !!! l) !!! p.
Proof.
  unfold sort_bucket. rewrite lookup_total_alter.
  destruct (decide (location = l)) as [<-|Hl].
  - rewrite (lookup_total_alt cur).
    destruct (cur !! location) as [inner|]; simpl.
    + rewrite lookup_total_alter. destruct (decide (id = p)) as [<-|Hp].
      * rewrite decide_True by done. rewrite lookup_total_alt.
        by destruct (inner !! id).
      * by rewrite decide_False by tauto.
    + change (inhabitant : gmap string (list Finding)) with
        (∅ : gmap string (list Finding)).
      rewrite lookup_total_empty. by destruct (decide _).
  - by rewrite decide_False by tauto.
Qed.

Lemma sort_bucket_entry (location id : string)
    (cur : gmap string (gmap string (list Finding))) (l p : string) :
  entry (sort_bucket location id cur) l p =
  if decide (location = l ∧ id = p) then sort_findings <$> entry cur l p
  else entry cur l p.
Proof.
  unfold entry, sort_bucket. rewrite lookup_alter.
  destruct (decide (location = l)) as [<-|Hl].
  - destruct (cur !! location) as [inner|]; simpl.
    + rewrite lookup_alter. destruct (decide (id = p)) as [<-|Hp].
      * by rewrite decide_True.
      * by rewrite decide_False by tauto.
    + by destruct (decide _).
  - by rewrite decide_False by tauto.
Qed.

Lemma same_sorted_refl (init : gmap string (gmap string (list Finding))) :
  same_sorted init init.
Proof. by intros l p. Qed.

Lemma same_sorted_sort_bucket (location id : string)
    (cur init : gmap string (gmap string (list Finding))) :
  same_sorted cur init → same_sorted (sort_bucket location id cur) init.
Proof.
  intros H l p. rewrite sort_bucket_read.
  destruct (decide _); [rewrite sort_findings_idemp|]; apply H.
Qed.

Lemma same_sorted_sort_visited (visited : list (string * string))
    (cur init : gmap string (gmap string (list Finding))) :
  same_sorted cur init → same_sorted (sort_visited visited cur) init.
Proof.
  revert cur. induction visited as [|[l p] vs IH]; intros cur H; [done|].
  apply IH. by apply same_sorted_sort_bucket.
Qed.

Lemma render_package_spec (verticalLine location : string) (lines : list line)
    (cur init : gmap string (gmap string (list Finding))) (pkg : Package) :
  same_sorted cur init →
  render_package verticalLine location (lines, cur) pkg =
  (lines ++ package_block verticalLine init location pkg,
   sort_bucket location (scan.Package.ID pkg) cur).
Proof.
  intros H. unfold render_package, package_block; simpl.
  by rewrite H, <- (assoc_L (++)).
Qed.

Lemma render_packages_spec (verticalLine location : string)
    (init : gmap string (gmap string (list Finding))) (pkgs : list Package) :
  ∀ (lines : list line) (cur : gmap string (gmap string (list Finding))),
  same_sorted cur init →
  foldl (render_package verticalLine location) (lines, cur) pkgs =
  (lines ++ (pkgs ≫= package_block verticalLine init location),
   sort_visited ((λ pkg, (location, scan.Package.ID pkg)) <$> pkgs) cur).
Proof.
  induction pkgs as [|pkg pkgs IH]; intros lines cur H; simpl.
  - by rewrite app_nil_r.
  - rewrite (render_package_spec _ _ _ _ init) by done.
    rewrite IH by by apply same_sorted_sort_bucket.
    by rewrite <- (assoc_L (++)).
Qed.

Lemma render_location_spec (ord : MapOrder) (byID : gmap string Package)
    (n i : nat) (location : string) (lines : list line)
    (cur init : gmap string (gmap string (list Finding))) :
  same_sorted cur init →
  render_location ord byID n i location (lines, cur) =
  (lines ++ location_block ord byID init n i location,
   sort_visited (visits ord byID [location]) cur).
Proof.
  intros H. unfold render_location, location_block, visits.
  rewrite bind_cons; simpl. rewrite app_nil_r. fold (packages_at ord byID location).
  destruct (Nat.eqb i (n - 1)); simpl;
    rewrite (render_packages_spec _ _ init) by done; simpl;
    by rewrite <- !(assoc_L (++)).
Qed.

Lemma sort_visited_app (vs1 vs2 : list (string * string))
    (cur : gmap string (gmap string (list Finding))) :
  sort_visited (vs1 ++ vs2) cur = sort_visited vs2 (sort_visited vs1 cur).
Proof. apply foldl_app. Qed.

Lemma render_locations_spec (ord : MapOrder) (byID : gmap string Package)
    (init : gmap string (gmap string (list Finding))) (n : nat)
    (locations : list string) :
  ∀ (i : nat) (lines : list line) (cur : gmap string (gmap string (list Finding))),
  same_sorted cur init →
  render_locations ord byID n i locations (lines, cur) =
  (lines ++ location_blocks ord byID init n i locations,
   sort_visited (visits ord byID locations) cur).
Proof.
  induction locations as [|location rest IH]; intros i lines cur H; simpl.
  - by rewrite app_nil_r.
  - rewrite (render_location_spec _ _ _ _ _ _ _ init) by done.
    rewrite IH by by apply same_sorted_sort_visited.
    rewrite <- (assoc_L (++)). f_equal.
    rewrite <- sort_visited_app. f_equal.
    unfold visits. rewrite !bind_cons. simpl. by rewrite app_nil_r.
Qed.

Lemma render_walk_spec (ord : MapOrder) (t : findingsTree) :
  render_walk ord t =
  (location_blocks ord (packagesByID t) (findingsByPackageByLocation t)
     (length (sort_Strings (locationKeys ord))) 0 (sort_Strings (locationKeys ord)),
   mkTree (sort_visited (visits ord (packagesByID t) (sort_Strings (locationKeys ord)))
             (findingsByPackageByLocation t))
          (packagesByID t)).
Proof.
  unfold render_walk.
  by rewrite (render_locations_spec _ _ (findingsByPackageByLocation t))
    by apply same_sorted_refl.
Qed.

(** ** Reading the report back *)

Lemma read_findings (verticalLine : string) (fs fs0 : list Finding)
    (pkgs : list (Package * list Finding)) (nodes : list node) :
  foldr read_line (fs0, pkgs, nodes) (FindingLine verticalLine <$> fs) =
  (fs ++ fs0, pkgs, nodes).
Proof.
  induction fs as [|f fs IH]; [done|].
  rewrite fmap_cons. cbn [foldr]. by rewrite IH.
Qed.

Lemma read_package_blocks (verticalLine location : string)
    (init : gmap string (gmap string (list Finding)))
    (pkgs : list Package) (pkgs0 : list (Package * list Finding))
    (nodes : list node) :
  foldr read_line ([], pkgs0, nodes)
    (pkgs ≫= package_block verticalLine init location) =
  ([], ((λ pkg, (pkg, sort_findings ((init !!! location) !!! scan.Package.ID pkg)))
          <$> pkgs) ++ pkgs0, nodes).
Proof.
  induction pkgs as [|pkg pkgs IH]; [done|].
  rewrite bind_cons, foldr_app, IH. unfold package_block. cbn [foldr].
  by rewrite read_findings, app_nil_r.
Qed.

Lemma read_location_block (ord : MapOrder) (byID : gmap string Package)
    (init : gmap string (gmap string (list Finding))) (n i : nat)
    (location : string)
    (acc : list Finding * list (Package * list Finding) * list node) :
  foldr read_line acc (location_block ord byID init n i location) =
  ([], [],
   (location,
    (λ pkg, (pkg, sort_findings ((init !!! location) !!! scan.Package.ID pkg)))
      <$> packages_at ord byID location) :: acc.2).
Proof.
  destruct acc as [[fs pkgs] nodes]. unfold location_block.
  destruct (Nat.eqb i (n - 1)); cbn [foldr]; rewrite foldr_app;
    cbn [foldr read_line]; by rewrite read_package_blocks, app_nil_r.
Qed.

Lemma read_location_blocks (ord : MapOrder) (byID : gmap string Package)
    (init : gmap string (gmap string (list Finding))) (n : nat)
    (locations : list string) :
  ∀ (i : nat) (acc : list Finding * list (Package * list Finding) * list node),
  (foldr read_line acc (location_blocks ord byID init n i locations)).2 =
  ((λ location,
      (location,
       (λ pkg, (pkg, sort_findings ((init !!! location) !!! scan.Package.ID pkg)))
         <$> packages_at ord byID location)) <$> locations) ++ acc.2.
Proof.
  induction locations as [|location rest IH]; intros i acc; [done|].
  cbn [location_blocks]. by rewrite foldr_app, read_location_block, IH.
Qed.

(** The nodes read back from the lines of [render] are the buckets of the
    tree the call started from, each sorted, under the packages sorted by
    name, under the locations sorted. *)
Lemma nodes_of_render (ord : MapOrder) (t : findingsTree) :
  nodes_of (render_lines ord t) = report_nodes ord t.
Proof.
  unfold nodes_of, render_lines. rewrite render_walk_spec; simpl.
  by rewrite read_location_blocks, app_nil_r.
Qed.

(** ** Keys, orders and what a valid iteration order reaches *)

Lemma elem_of_keys_of {V : Type} (m : gmap string V) (k : string) :
  k ∈ keys_of m ↔ is_Some (m !! k).
Proof.
  unfold keys_of. rewrite list_elem_of_fmap. split.
  - intros ([k' v] & -> & Hin). apply elem_of_map_to_list in Hin. by exists v.
  - intros [v Hv]. exists (k, v). split; [done|]. by apply elem_of_map_to_list.
Qed.

Lemma keys_of_dom {V : Type} (m : gmap string V) :
  keys_of m ≡ₚ elements (dom m).
Proof.
  apply NoDup_Permutation.
  - apply NoDup_fst_map_to_list.
  - apply NoDup_elements.
  - intros k. by rewrite elem_of_keys_of, elem_of_elements, elem_of_dom.
Qed.


Lemma sort_Strings_Permutation (x : list string) : sort_Strings x ≡ₚ x.
Proof. apply merge_sort_Permutation. Qed.





Lemma dom_add_finding (t : findingsTree) (f : Finding) :
  dom (findingsByPackageByLocation (add_finding t f)) =
  {[loc_of f]} ∪ dom (findingsByPackageByLocation t).
Proof. rewrite add_finding_tree. apply dom_insert_L. Qed.

(** The locations of the tree are the locations of the findings. *)
Lemma dom_newFindingsTree (F : list Finding) :
  dom (findingsByPackageByLocation (newFindingsTree F)) =
  list_to_set (loc_of <$> F).
Proof.
  induction F as [|f F IH] using rev_ind; [apply dom_empty_L|].
  rewrite newFindingsTree_snoc, dom_add_finding, IH, fmap_app, list_to_set_app_L.
  simpl. by rewrite (right_id_L ∅ (∪)), (comm_L (∪)).
Qed.


(** ** The tree after the walk *)

Lemma sort_bucket_lookup_None (location id l : string)
    (cur : gmap string (gmap string (list Finding))) :
  sort_bucket location id cur !! l = None ↔ cur !! l = None.
Proof.
  unfold sort_bucket. rewrite lookup_alter.
  destruct (decide (location = l)) as [<-|]; [|done].
  by rewrite fmap_None.
Qed.

Lemma sort_visited_lookup_None (visited : list (string * string)) (l : string) :
  ∀ cur : gmap string (gmap string (list Finding)),
  sort_visited visited cur !! l = None ↔ cur !! l = None.
Proof.
  induction visited as [|[l0 p0] vs IH]; intros cur; [done|].
  unfold sort_visited in *; simpl. by rewrite IH, sort_bucket_lookup_None.
Qed.

Lemma sort_visited_entry (visited : list (string * string)) (l p : string) :
  ∀ cur : gmap string (gmap string (list Finding)),
  entry (sort_visited visited cur) l p =
  if decide ((l, p) ∈ visited) then sort_findings <$> entry cur l p
  else entry cur l p.
Proof.
  induction visited as [|[l0 p0] vs IH]; intros cur.
  - rewrite decide_False; [done|]. apply not_elem_of_nil.
  - change (sort_visited ((l0, p0) :: vs) cur) with
      (sort_visited vs (sort_bucket l0 p0 cur)).
    rewrite IH, sort_bucket_entry.
    destruct (decide (l0 = l ∧ p0 = p)) as [[-> ->]|Hne].
    + rewrite (decide_True (P := (l, p) ∈ (l, p) :: vs)) by apply list_elem_of_here.
      destruct (decide _); [|done].
      destruct (entry cur l p) as [fs|]; simpl; [|done].
      by rewrite sort_findings_idemp.
    + destruct (decide ((l, p) ∈ vs)) as [Hin|Hnin].
      * rewrite decide_True; [done|]. by apply list_elem_of_further.
      * rewrite decide_False; [done|].
        intros [Heq|Hin]%elem_of_cons; [|done]. simplify_eq. tauto.
Qed.

(** When the walk reaches every bucket, every bucket is left sorted. *)
Lemma sort_visited_all (visited : list (string * string))
    (init : gmap string (gmap string (list Finding))) :
  (∀ l p, is_Some (entry init l p) → (l, p) ∈ visited) →
  sort_visited visited init = sort_every_bucket init.
Proof.
  intros Hall. apply map_eq; intros l. unfold sort_every_bucket.
  rewrite lookup_fmap.
  destruct (init !! l) as [b|] eqn:Hb; simpl.
  - destruct (sort_visited visited init !! l) as [a|] eqn:Ha.
    + f_equal. apply map_eq; intros p. rewrite lookup_fmap.
      pose proof (sort_visited_entry visited l p init) as He.
      unfold entry in He. rewrite Ha, Hb in He; simpl in He. rewrite He.
      destruct (decide ((l, p) ∈ visited)) as [|Hnin]; [done|].
      destruct (b !! p) as [fs|] eqn:Hp; [|done].
      exfalso. apply Hnin, Hall. unfold entry. rewrite Hb; simpl. by rewrite Hp.
    + apply sort_visited_lookup_None in Ha. congruence.
  - by apply sort_visited_lookup_None.
Qed.

(** ** Trees built by the aggregator *)

Lemma entry_add_finding (t : findingsTree) (f : Finding) (l p : string) :
  is_Some (entry (findingsByPackageByLocation (add_finding t f)) l p) →
  (l = loc_of f ∧ p = pid_of f) ∨
  is_Some (entry (findingsByPackageByLocation t) l p).
Proof.
  rewrite add_finding_tree. unfold entry.
  destruct (decide (loc_of f = l)) as [<-|Hl].
  - rewrite lookup_insert_eq; simpl.
    destruct (decide (pid_of f = p)) as [<-|Hp]; [by left|].
    rewrite lookup_insert_ne by done. rewrite lookup_total_alt.
    destruct (findingsByPackageByLocation t !! loc_of f); simpl; [by right|].
    change (inhabitant : gmap string (list Finding)) with
      (∅ : gmap string (list Finding)).
    rewrite lookup_empty. by intros [? ?].
  - rewrite lookup_insert_ne by done. by right.
Qed.

(** An entry of the tree exists only for the keys of some finding. *)
Lemma entry_newFindingsTree (F : list Finding) (l p : string) :
  is_Some (entry (findingsByPackageByLocation (newFindingsTree F)) l p) →
  ∃ f, f ∈ F ∧ loc_of f = l ∧ pid_of f = p.
Proof.
  induction F as [|f F IH] using rev_ind.
  - unfold entry; simpl. rewrite lookup_empty; simpl. by intros [? ?].
  - rewrite newFindingsTree_snoc. intros [[-> ->]|H]%entry_add_finding.
    + exists f. split; [|done]. apply elem_of_app. right. apply list_elem_of_here.
    + destruct (IH H) as (f' & Hin & Hk). exists f'. split; [|done].
      apply elem_of_app. by left.
Qed.

(** The package recorded under an ID carries that ID. *)
Lemma recorded_package_ID (F : list Finding) (p : string) (f : Finding) :
  f ∈ F → pid_of f = p →
  scan.Package.ID (packagesByID (newFindingsTree F) !!! p) = p.
Proof.
  intros Hin Hp. rewrite lookup_total_alt, packagesByID_newFindingsTree.
  destruct (last (filter (λ f, pid_of f = p) F)) as [f'|] eqn:Hlast; simpl.
  - apply last_Some_elem_of, list_elem_of_filter in Hlast. by destruct Hlast.
  - apply last_None in Hlast.
    assert (f ∈ filter (λ f, pid_of f = p) F) as Hf
      by by apply list_elem_of_filter.
    rewrite Hlast in Hf. by apply not_elem_of_nil in Hf.
Qed.

(** With a valid iteration order the walk reaches every bucket of a tree
    the aggregator built. *)
Lemma visits_complete (F : list Finding) (ord : MapOrder) (l p : string) :
  valid_order ord (newFindingsTree F) →
  is_Some (entry (findingsByPackageByLocation (newFindingsTree F)) l p) →
  (l, p) ∈ visits ord (packagesByID (newFindingsTree F))
             (sort_Strings (locationKeys ord)).
Proof.
  intros [Hlocs Hpkgs] He.
  destruct (entry_newFindingsTree F l p He) as (f & Hin & Hl & Hp).
  unfold entry in He.
  destruct (findingsByPackageByLocation (newFindingsTree F) !! l)
    as [inner|] eqn:Hinner; simpl in He; [|by destruct He].
  unfold visits. apply list_elem_of_bind. exists l. split.
  - apply list_elem_of_fmap. exists (packagesByID (newFindingsTree F) !!! p).
    split; [by rewrite (recorded_package_ID F p f)|].
    unfold packages_at. rewrite SliceStable_Permutation.
    apply (list_elem_of_fmap_2 (λ id, packagesByID (newFindingsTree F) !!! id)).
    rewrite (map_Forall_lookup_1 _ _ _ _ Hpkgs Hinner).
    by apply elem_of_keys_of.
  - rewrite sort_Strings_Permutation, Hlocs. apply elem_of_keys_of.
    by rewrite Hinner.
Qed.

(** The tree a call of [render] leaves behind. *)
Lemma tree_after_render_built (F : list Finding) (ord : MapOrder) :
  valid_order ord (newFindingsTree F) →
  tree_after_render ord (newFindingsTree F) =
  mkTree (sort_every_bucket (findingsByPackageByLocation (newFindingsTree F)))
         (packagesByID (newFindingsTree F)).
Proof.
  intros Hord. unfold tree_after_render. rewrite render_walk_spec; simpl.
  f_equal. apply sort_visited_all. intros l p. by apply visits_complete.
Qed.

(** C1. For every sequence of findings, the aggregated tree holds every
    finding in exactly one (Location, PackageID) bucket, the one named by
    the finding's own [Package.Location] and [Package.ID]: each bucket is
    the sub-sequence of the input carrying its two keys, a finding of the
    input is in the bucket at [(l, p)] exactly when these are its own
    keys, the buckets together are a rearrangement of the input, and the
    number of findings summed over all buckets is the length of the
    input. *)
Theorem newFindingsTree_partition (F : list Finding) :
  total_findings (newFindingsTree F) = length F ∧
  all_findings (newFindingsTree F) ≡ₚ F ∧
  (∀ l p, bucket (newFindingsTree F) l p =
          filter (λ f, loc_of f = l ∧ pid_of f = p) F) ∧
  (∀ l p inner fs,
     findingsByPackageByLocation (newFindingsTree F) !! l = Some inner →
     inner !! p = Some fs →
     fs = filter (λ f, loc_of f = l ∧ pid_of f = p) F) ∧
  (∀ f l p, f ∈ F →
     (f ∈ bucket (newFindingsTree F) l p ↔ l = loc_of f ∧ p = pid_of f)).
Proof.
  split_and!.
  - by rewrite total_findings_length, all_findings_newFindingsTree.
  - apply all_findings_newFindingsTree.
  - apply bucket_newFindingsTree.
  - intros l p inner fs Hl Hp.
    by rewrite <- (tree_entry_bucket _ _ _ _ _ Hl Hp), bucket_newFindingsTree.
  - intros f l p Hf. rewrite bucket_newFindingsTree, list_elem_of_filter.
    split; [by intros [[<- <-] _]|by intros [-> ->]].
Qed.

Lemma newFindingsTree_partition_witness :
  let F := [mkFinding "/bin/a" "p1" "foo" "1" "CVE-2";
            mkFinding "/bin/b" "p1" "foo" "1" "CVE-1";
            mkFinding "/bin/a" "p1" "foo" "1" "CVE-2"] in
  total_findings (newFindingsTree F) = 3 ∧
  bucket (newFindingsTree F) "/bin/a" "p1" =
    [mkFinding "/bin/a" "p1" "foo" "1" "CVE-2";
     mkFinding "/bin/a" "p1" "foo" "1" "CVE-2"].
Proof.
  intros F. split.
  - apply (newFindingsTree_partition F).
  - destruct (newFindingsTree_partition F) as (_ & _ & Hb & _).
    rewrite Hb. vm_compute. reflexivity.
Defined.

(** C2, as stated, fails: with two findings that share a package ID and
    differ in package metadata, the first finding bearing the ID is the
    one named "first", and the package recorded for the ID is not its
    package. *)
Lemma first_writer_wins_counterexample :
  let fA := mkFinding "/bin/a" "pkg" "first" "1.0" "CVE-1" in
  let fB := mkFinding "/bin/a" "pkg" "second" "2.0" "CVE-2" in
  head (filter (λ f, pid_of f = "pkg") [fA; fB]) = Some fA ∧
  packagesByID (newFindingsTree [fA; fB]) !! "pkg" = Some (scan.Finding.Package fB) ∧
  packagesByID (newFindingsTree [fA; fB]) !! "pkg" ≠ Some (scan.Finding.Package fA).
Proof. vm_compute. split_and!; [done|done|discriminate]. Qed.

(** C2, amended. For every sequence of findings and every package ID,
    the package metadata recorded for the ID is the package value of the
    last finding in input order bearing that ID (each finding overwrites
    the entry: last writer wins), and an entry is recorded exactly for the
    IDs that some finding bears.  The aggregation is a total function: it
    yields a tree for every input, consistent or not. *)
Theorem last_writer_wins (F : list Finding) (id : string) :
  packagesByID (newFindingsTree F) !! id =
    scan.Finding.Package <$> last (filter (λ f, pid_of f = id) F) ∧
  (is_Some (packagesByID (newFindingsTree F) !! id) ↔ ∃ f, f ∈ F ∧ pid_of f = id).
Proof.
  split; [apply packagesByID_newFindingsTree|].
  rewrite packagesByID_newFindingsTree, fmap_is_Some, last_is_Some. split.
  - intros Hne. destruct (filter _ F) as [|f fs] eqn:Hfilter; [done|].
    exists f. apply and_comm, (list_elem_of_filter (λ f, pid_of f = id)).
    rewrite Hfilter. apply list_elem_of_here.
  - intros (f & Hin & Hid) Hnil.
    assert (f ∈ filter (λ f, pid_of f = id) F) as Hf
      by by apply list_elem_of_filter.
    rewrite Hnil in Hf. by apply not_elem_of_nil in Hf.
Qed.

(** ** The order of the rendered nodes *)

Lemma location_keys_newFindingsTree (F : list Finding) (ord : MapOrder) :
  valid_order ord (newFindingsTree F) →
  locationKeys ord ≡ₚ elements (list_to_set (loc_of <$> F) : gset string).
Proof. intros [-> _]. by rewrite keys_of_dom, dom_newFindingsTree. Qed.








Lemma package_nodes_fst (t : findingsTree) (location : string) (pkgs : list Package) :
  (package_node t location <$> pkgs).*1 = pkgs.
Proof. induction pkgs as [|pkg pkgs IH]; [done|]. csimpl. by f_equal. Qed.






(** ** What rendering does to the tree *)

Lemma sort_every_bucket_read (tree : gmap string (gmap string (list Finding)))
    (l p : string) :
  (sort_every_bucket tree !!! l) !!! p = sort_findings ((tree !!! l) !!! p).
Proof.
  unfold sort_every_bucket. rewrite !(lookup_total_alt _ l), lookup_fmap.
  destruct (tree !! l) as [inner|]; simpl.
  - rewrite !lookup_total_alt, lookup_fmap. by destruct (inner !! p).
  - change (inhabitant : gmap string (list Finding)) with
      (∅ : gmap string (list Finding)).
    by rewrite lookup_total_empty.
Qed.

(** C9, as stated, fails: a bucket whose findings were appended out of
    vulnerability-ID order is in a different order after the call of
    [render], so the tree is not the one that was constructed. *)
Lemma render_mutates_counterexample :
  valid_order order_one_bucket (newFindingsTree one_bucket) ∧
  (vid_of <$> bucket (newFindingsTree one_bucket) "/bin/a" "p")
    = ["GHSA-2"; "GHSA-1"; "GHSA-2"] ∧
  (vid_of <$> bucket (tree_after_render order_one_bucket (newFindingsTree one_bucket))
                "/bin/a" "p")
    = ["GHSA-1"; "GHSA-2"; "GHSA-2"] ∧
  tree_after_render order_one_bucket (newFindingsTree one_bucket) ≠
    newFindingsTree one_bucket.
Proof.
  split_and!.
  - apply (bool_decide_unpack _). vm_compute. exact I.
  - vm_compute. reflexivity.
  - vm_compute. reflexivity.
  - intros Heq.
    assert (vid_of <$> bucket (tree_after_render order_one_bucket
                                 (newFindingsTree one_bucket)) "/bin/a" "p"
            = vid_of <$> bucket (newFindingsTree one_bucket) "/bin/a" "p") as H
      by by rewrite Heq.
    vm_compute in H. discriminate H.
Qed.

(** C9, amended. Rendering an aggregated report computes its text from
    the tree and the iteration order alone and leaves the package metadata,
    the set of locations, the package IDs of each location and the
    findings held by each bucket as they were, but not their order: the
    call sorts every bucket in place, so that after rendering each bucket
    is its content after construction stably sorted by
    [Vulnerability.ID]. *)
Theorem render_sorts_buckets_in_place (F : list Finding) (ord : MapOrder) :
  valid_order ord (newFindingsTree F) →
  packagesByID (tree_after_render ord (newFindingsTree F)) =
    packagesByID (newFindingsTree F) ∧
  findingsByPackageByLocation (tree_after_render ord (newFindingsTree F)) =
    sort_every_bucket (findingsByPackageByLocation (newFindingsTree F)) ∧
  dom (findingsByPackageByLocation (tree_after_render ord (newFindingsTree F))) =
    dom (findingsByPackageByLocation (newFindingsTree F)) ∧
  (∀ l, dom (findingsByPackageByLocation (tree_after_render ord (newFindingsTree F)) !!! l) =
        dom (findingsByPackageByLocation (newFindingsTree F) !!! l)) ∧
  (∀ l p, bucket (tree_after_render ord (newFindingsTree F)) l p =
            sort_findings (bucket (newFindingsTree F) l p) ∧
          bucket (tree_after_render ord (newFindingsTree F)) l p ≡ₚ
            bucket (newFindingsTree F) l p).
Proof.
  intros Hord. rewrite (tree_after_render_built F ord Hord); simpl.
  split_and!; [done|done|apply dom_fmap_L| |].
  - intros l. unfold sort_every_bucket.
    rewrite !(lookup_total_alt _ l), lookup_fmap.
    destruct (_ !! l) as [inner|]; simpl; [apply dom_fmap_L|done].
  - intros l p. unfold bucket; simpl. rewrite sort_every_bucket_read.
    split; [done|apply SliceStable_Permutation].
Qed.

Lemma render_sorts_buckets_in_place_witness :
  bucket (tree_after_render order_one_bucket (newFindingsTree one_bucket)) "/bin/a" "p" =
    sort_findings (bucket (newFindingsTree one_bucket) "/bin/a" "p") ∧
  bucket (tree_after_render order_one_bucket (newFindingsTree one_bucket)) "/bin/a" "p" ≡ₚ
    bucket (newFindingsTree one_bucket) "/bin/a" "p".
Proof.
  apply (render_sorts_buckets_in_place one_bucket order_one_bucket).
  apply (bool_decide_unpack _). vm_compute. exact I.
Defined.

(** ** Identifiers, hyperlinks and the fix annotation *)

Lemma append_assoc (a b c : string) : (a +:+ b) +:+ c = a +:+ (b +:+ c).
Proof.
  induction a as [|x a IH]; [done|].
  change (String x ((a +:+ b) +:+ c) = String x (a +:+ (b +:+ c))).
  by rewrite IH.
Qed.

Lemma append_empty_r (a : string) : a +:+ "" = a.
Proof.
  induction a as [|x a IH]; [done|].
  change (String x (a +:+ "") = String x a). by rewrite IH.
Qed.

Lemma HasPrefix_CVE_nonempty (s : string) :
  HasPrefix s "CVE-" = true → String.eqb s "" = false.
Proof. by destruct s. Qed.

Lemma HasPrefix_GHSA_not_CVE (s : string) :
  HasPrefix s "GHSA-" = true → HasPrefix s "CVE-" = false.
Proof.
  destruct s as [|c s]; [done|]. unfold HasPrefix. cbn [String.prefix].
  destruct (Ascii.ascii_dec _ c) as [<-|]; [|done].
  by destruct (Ascii.ascii_dec _ _).
Qed.

Lemma scan_aliases_first (aliases : list string) :
  scan_aliases aliases "" =
  default "" (head (filter (λ alias, HasPrefix alias "CVE-" = true) aliases)).
Proof.
  induction aliases as [|alias rest IH]; [done|].
  simpl. rewrite filter_cons.
  destruct (HasPrefix alias "CVE-") eqn:Hp.
  - by rewrite decide_True.
  - by rewrite decide_False by congruence.
Qed.

Section Render_facts.
Variable Render : Style → string → string.
Variable Link : string → string → string.
Variable termSupportsHyperlinks : bool.

(** C6. The identifier rendered for a vulnerability is decided by the
    first alias, in the order of [Aliases], that has the prefix [CVE-]:
    when there is one, the output is that alias, hyperlinked, then a space,
    then the native ID, hyperlinked on its own and rendered in the subtle
    style; when no alias has the prefix, the output is the native ID,
    hyperlinked, and no style is applied to it. *)
Theorem renderVulnerabilityID_first_CVE (vuln : Vulnerability) :
  renderVulnerabilityID Render Link termSupportsHyperlinks vuln =
  match head (filter (λ alias, HasPrefix alias "CVE-" = true)
                     (scan.Vulnerability.Aliases vuln)) with
  | Some cveID =>
      hyperlinkVulnerabilityID Link termSupportsHyperlinks cveID +:+ " " +:+
      Render styleSubtle
        (hyperlinkVulnerabilityID Link termSupportsHyperlinks (scan.Vulnerability.ID vuln))
  | None =>
      hyperlinkVulnerabilityID Link termSupportsHyperlinks (scan.Vulnerability.ID vuln)
  end.
Proof.
  unfold renderVulnerabilityID. rewrite scan_aliases_first.
  destruct (head _) as [cveID|] eqn:Hhead; simpl; [|done].
  apply head_Some_elem_of, list_elem_of_filter in Hhead as [Hp _].
  by rewrite (HasPrefix_CVE_nonempty _ Hp).
Qed.

(** C8, amended. The line of a vulnerability is the vertical line, the
    indentation, the severity badge, a space and the identifier, followed
    by the fix annotation.  The annotation is the empty string exactly
    when [FixedVersion] is empty: then nothing is appended and the line
    ends with the identifier.  When [FixedVersion] is not empty the
    annotation is [ fixed in <FixedVersion>], and the line contains
    [fixed in <FixedVersion>]. *)
Theorem fix_annotation (verticalLine : string) (f : Finding) :
  let vuln := scan.Finding.Vulnerability f in
  let base :=
    verticalLine +:+ "           " +:+
    renderSeverity Render (scan.Vulnerability.Severity vuln) +:+ " " +:+
    renderVulnerabilityID Render Link termSupportsHyperlinks vuln in
  let shown := show_line Render Link termSupportsHyperlinks (FindingLine verticalLine f) in
  shown = base +:+ renderFixedIn vuln ∧
  (renderFixedIn vuln = "" ↔ scan.Vulnerability.FixedVersion vuln = "") ∧
  (scan.Vulnerability.FixedVersion vuln = "" → shown = base) ∧
  (scan.Vulnerability.FixedVersion vuln ≠ "" →
     renderFixedIn vuln = " fixed in " +:+ scan.Vulnerability.FixedVersion vuln ∧
     Substring ("fixed in " +:+ scan.Vulnerability.FixedVersion vuln) shown).
Proof.
  intros vuln base shown.
  assert (shown = base +:+ renderFixedIn vuln) as Hshown.
  { unfold shown, base, show_line. fold vuln.
    by rewrite <- !append_assoc. }
  unfold renderFixedIn in *.
  destruct (String.eqb_spec (scan.Vulnerability.FixedVersion vuln) "") as [Hfv|Hfv].
  - split_and!; [done|done| |done].
    intros _. rewrite Hshown. by rewrite append_empty_r.
  - split_and!; [done| |done|].
    + split; [|done]. by destruct (scan.Vulnerability.FixedVersion vuln).
    + intros _. split; [done|].
      exists (base +:+ " "), "". rewrite Hshown.
      by rewrite append_empty_r, append_assoc.
Qed.
End Render_facts.

Lemma renderVulnerabilityID_first_CVE_examples :
  renderVulnerabilityID plain_Render osc8_Link false
    (scan.Vulnerability.mk "GHSA-xxxx" ["GHSA-xxxx"; "CVE-2023-0001"; "CVE-2023-0002"]
       "High" "") = "CVE-2023-0001 GHSA-xxxx" ∧
  renderVulnerabilityID plain_Render osc8_Link false
    (scan.Vulnerability.mk "GHSA-yyyy" ["GHSA-yyyy"] "High" "") = "GHSA-yyyy".
Proof. split; vm_compute; reflexivity. Qed.

(** C7. With the hyperlink capability flag false an identifier is
    rendered as its literal text and [Link] is not used.  With the flag
    true, an identifier with the prefix [CVE-] is [Link]ed to
    [https://nvd.nist.gov/vuln/detail/<id>], one with the prefix [GHSA-] to
    [https://github.com/advisories/<id>], and an identifier with neither
    prefix is rendered as its literal text. *)
Theorem hyperlink_gating (Link : string → string → string) (id : string) :
  hyperlinkVulnerabilityID Link false id = id ∧
  (HasPrefix id "CVE-" = true →
     hyperlinkVulnerabilityID Link true id =
     Link id ("https://nvd.nist.gov/vuln/detail/" +:+ id)) ∧
  (HasPrefix id "GHSA-" = true →
     hyperlinkVulnerabilityID Link true id =
     Link id ("https://github.com/advisories/" +:+ id)) ∧
  (HasPrefix id "CVE-" = false → HasPrefix id "GHSA-" = false →
     hyperlinkVulnerabilityID Link true id = id).
Proof.
  unfold hyperlinkVulnerabilityID; simpl. split_and!.
  - done.
  - by intros ->.
  - intros H. by rewrite (HasPrefix_GHSA_not_CVE _ H), H.
  - by intros -> ->.
Qed.

Lemma hyperlink_gating_witness :
  hyperlinkVulnerabilityID osc8_Link false "CVE-2023-0001" = "CVE-2023-0001" ∧
  hyperlinkVulnerabilityID osc8_Link true "CVE-2023-0001" =
    osc8_Link "CVE-2023-0001" "https://nvd.nist.gov/vuln/detail/CVE-2023-0001" ∧
  hyperlinkVulnerabilityID osc8_Link true "GHSA-abcd" =
    osc8_Link "GHSA-abcd" "https://github.com/advisories/GHSA-abcd" ∧
  hyperlinkVulnerabilityID osc8_Link true "RUSTSEC-1" = "RUSTSEC-1".
Proof.
  split_and!.
  - apply (hyperlink_gating osc8_Link "CVE-2023-0001").
  - apply (hyperlink_gating osc8_Link "CVE-2023-0001"). reflexivity.
  - apply (hyperlink_gating osc8_Link "GHSA-abcd"). reflexivity.
  - apply (hyperlink_gating osc8_Link "RUSTSEC-1"); reflexivity.
Defined.

(** C8, as stated, fails: a vulnerability with an empty [FixedVersion]
    whose native ID is the text [fixed in git] has a line that contains
    [fixed in <FixedVersion>], which for the empty version is
    [fixed in ]. *)
Lemma fix_annotation_counterexample :
  let vuln := scan.Vulnerability.mk "fixed in git" [] "High" "" in
  let f := scan.Finding.mk (scan.Package.mk "p" "lib" "1.0" "apk" "/bin/a") vuln in
  scan.Vulnerability.FixedVersion vuln = "" ∧
  Substring ("fixed in " +:+ scan.Vulnerability.FixedVersion vuln)
            (show_line plain_Render osc8_Link false (FindingLine "│" f)).
Proof.
  intros vuln f. split; [done|].
  exists "│           High ", "git". vm_compute. reflexivity.
Qed.

Lemma fix_annotation_witness :
  let vuln := scan.Vulnerability.mk "CVE-2024-0001" [] "High" "1.2.3" in
  let f := scan.Finding.mk (scan.Package.mk "p" "lib" "1.0" "apk" "/bin/a") vuln in
  Substring "fixed in 1.2.3" (show_line plain_Render osc8_Link false (FindingLine "│" f)) ∧
  show_line plain_Render osc8_Link false (FindingLine "│" f) =
    "│           High CVE-2024-0001 fixed in 1.2.3".
Proof.
  intros vuln f. split.
  - apply (fix_annotation plain_Render osc8_Link false "│" f). discriminate.
  - vm_compute. reflexivity.
Defined.

(** ** The command loop *)

Lemma opened_snoc (tr : list event) (ev : event) :
  opened (tr ++ [ev]) = opened tr ++ opened [ev].
Proof. apply omap_app. Qed.

Lemma scanned_snoc (tr : list event) (ev : event) :
  scanned (tr ++ [ev]) = scanned tr ++ scanned [ev].
Proof. apply omap_app. Qed.

Section Scan_facts.
Variable World File E : Type.
Variable os_Open : string → World → World * (File + E).
Variable scan_APK : File → World → World * (list Finding + E).
Variable file_Close : File → World → World.
Variable path_Base : string → string.
Variable iteration : World → MapOrder.
Variable Render : Style → string → string.
Variable Link : string → string → string.
Variable termSupportsHyperlinks : bool.

Local Abbreviation run :=
  (RunE World File E os_Open scan_APK file_Close path_Base iteration
        Render Link termSupportsHyperlinks).

(** A prefix of the arguments that the loop gets through without
    returning is followed by the loop on the remaining arguments, and each
    of its arguments was opened and scanned. *)
Lemma RunE_prefix (p : scanParams) (pre : list string) :
  ∀ (st st1 : state World),
  run p pre st = (st1, None) →
  (∀ rest, run p (pre ++ rest) st = run p rest st1) ∧
  opened (trace World st1) = opened (trace World st) ++ pre ∧
  scanned (trace World st1) = scanned (trace World st) ++ pre.
Proof.
  induction pre as [|a pre IH]; intros st st1 Hrun.
  - simpl in Hrun. simplify_eq. by rewrite !app_nil_r.
  - simpl in Hrun |- *.
    destruct (os_Open a (world World st)) as [w [file|err]]; [|done].
    simpl in Hrun |- *.
    destruct (scan_APK file w) as [w' [fs|err]]; [|done].
    simpl in Hrun |- *.
    destruct (requireZeroFindings p && (0 <? length fs)); [done|].
    apply IH in Hrun as (Hrest & Hopened & Hscanned).
    split_and!; [done| |].
    + rewrite Hopened. destruct (length fs =? 0); simpl;
        rewrite !opened_snoc; simpl; by rewrite !app_nil_r, <- (assoc_L (++)).
    + rewrite Hscanned. destruct (length fs =? 0); simpl;
        rewrite !scanned_snoc; simpl; by rewrite !app_nil_r, <- (assoc_L (++)).
Qed.




End Scan_facts.



(** * Further properties of the code *)

(** ** The aggregator: invariants and composition *)

Lemma dom_packagesByID_newFindingsTree (F : list Finding) :
  dom (packagesByID (newFindingsTree F)) = list_to_set (pid_of <$> F).
Proof.
  induction F as [|f F IH] using rev_ind; [apply dom_empty_L|].
  rewrite newFindingsTree_snoc, add_finding_packages, dom_insert_L, IH.
  rewrite fmap_app, list_to_set_app_L. simpl.
  by rewrite (right_id_L ∅ (∪)), (comm_L (∪)).
Qed.

Lemma entry_Some_bucket (t : findingsTree) (l p : string) (fs : list Finding) :
  entry (findingsByPackageByLocation t) l p = Some fs → bucket t l p = fs.
Proof.
  unfold entry. destruct (findingsByPackageByLocation t !! l) as [inner|] eqn:Hl;
    simpl; [|done].
  intros Hp. by apply (tree_entry_bucket t l p inner).
Qed.

(** A finding of the input has an entry in the tree at its two keys. *)
Lemma entry_of_finding (F : list Finding) (f : Finding) :
  f ∈ F →
  is_Some (entry (findingsByPackageByLocation (newFindingsTree F))
             (loc_of f) (pid_of f)).
Proof.
  intros Hin.
  assert (f ∈ bucket (newFindingsTree F) (loc_of f) (pid_of f)) as Hb.
  { rewrite bucket_newFindingsTree. by apply list_elem_of_filter. }
  unfold bucket in Hb. unfold entry.
  rewrite !lookup_total_alt in Hb.
  destruct (findingsByPackageByLocation (newFindingsTree F) !! loc_of f)
    as [inner|]; simpl in *.
  - destruct (inner !! pid_of f); simpl in *; [done|].
    by apply not_elem_of_nil in Hb.
  - rewrite lookup_empty in Hb. by apply not_elem_of_nil in Hb.
Qed.

(** X1. The tree the aggregator builds is well formed: its locations are
    the locations of the findings and the recorded package IDs are the
    package IDs of the findings; the package recorded under an ID carries
    that ID; no location has an empty package map and no bucket is empty;
    every package ID of a location has its package recorded. *)
Theorem newFindingsTree_wellformed (F : list Finding) :
  dom (findingsByPackageByLocation (newFindingsTree F)) =
    list_to_set (loc_of <$> F) ∧
  dom (packagesByID (newFindingsTree F)) = list_to_set (pid_of <$> F) ∧
  (∀ id pkg, packagesByID (newFindingsTree F) !! id = Some pkg →
             scan.Package.ID pkg = id) ∧
  (∀ l inner, findingsByPackageByLocation (newFindingsTree F) !! l = Some inner →
              inner ≠ ∅) ∧
  (∀ l inner p fs,
     findingsByPackageByLocation (newFindingsTree F) !! l = Some inner →
     inner !! p = Some fs →
     fs ≠ [] ∧ is_Some (packagesByID (newFindingsTree F) !! p)).
Proof.
  split_and!.
  - apply dom_newFindingsTree.
  - apply dom_packagesByID_newFindingsTree.
  - intros id pkg Hpkg. rewrite packagesByID_newFindingsTree in Hpkg.
    destruct (last _) as [f|] eqn:Hlast; simplify_eq/=.
    apply last_Some_elem_of, list_elem_of_filter in Hlast. by destruct Hlast.
  - intros l inner Hl ->.
    assert (l ∈ dom (findingsByPackageByLocation (newFindingsTree F))) as Hd
      by by apply elem_of_dom_2 in Hl.
    rewrite dom_newFindingsTree, elem_of_list_to_set, list_elem_of_fmap in Hd.
    destruct Hd as (f & -> & Hin).
    destruct (entry_of_finding F f Hin) as [fs Hfs]. unfold entry in Hfs.
    rewrite Hl in Hfs. simpl in Hfs. by rewrite lookup_empty in Hfs.
  - intros l inner p fs Hl Hp.
    assert (is_Some (entry (findingsByPackageByLocation (newFindingsTree F)) l p))
      as He by (unfold entry; rewrite Hl; simpl; by rewrite Hp).
    destruct (entry_newFindingsTree F l p He) as (f & Hin & Hfl & Hfp).
    split.
    + rewrite <- (tree_entry_bucket _ _ _ _ _ Hl Hp), bucket_newFindingsTree.
      intros Hnil.
      assert (f ∈ filter (λ f, loc_of f = l ∧ pid_of f = p) F) as Hf
        by by apply list_elem_of_filter.
      rewrite Hnil in Hf. by apply not_elem_of_nil in Hf.
    + apply elem_of_dom. rewrite dom_packagesByID_newFindingsTree.
      apply elem_of_list_to_set, list_elem_of_fmap. by exists f.
Qed.

(** X2. Aggregation composes over concatenation of the input: the buckets
    of [F1 ++ F2] are those of [F1] followed by those of [F2], and the
    recorded packages are those of [F2], then those of [F1] for the IDs
    [F2] does not mention. *)
Theorem newFindingsTree_app (F1 F2 : list Finding) :
  (∀ l p, bucket (newFindingsTree (F1 ++ F2)) l p =
          bucket (newFindingsTree F1) l p ++ bucket (newFindingsTree F2) l p) ∧
  packagesByID (newFindingsTree (F1 ++ F2)) =
    packagesByID (newFindingsTree F2) ∪ packagesByID (newFindingsTree F1).
Proof.
  split.
  - intros l p. by rewrite !bucket_newFindingsTree, filter_app.
  - apply map_eq; intros id.
    rewrite lookup_union, !packagesByID_newFindingsTree, filter_app, last_app.
    by destruct (last (filter _ F2)), (last (filter _ F1)).
Qed.

(** ** Rendering more than once *)

Lemma package_block_same_sorted (verticalLine location : string)
    (a b : gmap string (gmap string (list Finding))) (pkg : Package) :
  same_sorted a b →
  package_block verticalLine a location pkg =
  package_block verticalLine b location pkg.
Proof. intros H. unfold package_block. by rewrite H. Qed.

Lemma location_blocks_same_sorted (ord : MapOrder) (byID : gmap string Package)
    (a b : gmap string (gmap string (list Finding))) (n : nat)
    (locations : list string) :
  same_sorted a b →
  ∀ i, location_blocks ord byID a n i locations =
       location_blocks ord byID b n i locations.
Proof.
  intros H. induction locations as [|location rest IH]; intros i; [done|].
  simpl. rewrite IH. f_equal. unfold location_block.
  assert (∀ v pkgs, pkgs ≫= package_block v a location =
                    pkgs ≫= package_block v b location) as Hbody.
  { intros v pkgs. induction pkgs as [|pkg pkgs IHp]; [done|].
    by rewrite !bind_cons, IHp, (package_block_same_sorted _ _ a b). }
  destruct (Nat.eqb i (n - 1)); by rewrite Hbody.
Qed.

(** X3. The in-place sorting of one call of [render] never shows in a
    later call: rendering the tree a first call left behind gives the lines,
    and so the text, that rendering the tree as constructed gives, for the
    same iteration order of the later call and whatever order the first
    call saw. *)
Theorem render_after_render (t : findingsTree) (ord ord' : MapOrder)
    (Render : Style → string → string) (Link : string → string → string)
    (termSupportsHyperlinks : bool) :
  render_lines ord (tree_after_render ord' t) = render_lines ord t ∧
  render Render Link termSupportsHyperlinks ord (tree_after_render ord' t) =
    render Render Link termSupportsHyperlinks ord t.
Proof.
  assert (render_lines ord (tree_after_render ord' t) = render_lines ord t) as H.
  { unfold render_lines, tree_after_render. rewrite !render_walk_spec; simpl.
    apply location_blocks_same_sorted, same_sorted_sort_visited, same_sorted_refl. }
  split; [done|]. unfold render. by rewrite H.
Qed.

Lemma sort_bucket_sorted (location id : string)
    (tree : gmap string (gmap string (list Finding))) :
  (∀ l p fs, entry tree l p = Some fs → sort_findings fs = fs) →
  sort_bucket location id tree = tree.
Proof.
  intros Hsorted. unfold sort_bucket. apply alter_id. intros inner Hinner.
  apply alter_id. intros fs Hfs. apply (Hsorted location id).
  unfold entry. rewrite Hinner. simpl. done.
Qed.

Lemma sort_visited_sorted (visited : list (string * string))
    (tree : gmap string (gmap string (list Finding))) :
  (∀ l p fs, entry tree l p = Some fs → sort_findings fs = fs) →
  sort_visited visited tree = tree.
Proof.
  intros Hsorted. induction visited as [|[l p] vs IH]; [done|].
  unfold sort_visited in *. simpl. by rewrite sort_bucket_sorted.
Qed.

Lemma sort_every_bucket_sorted (tree : gmap string (gmap string (list Finding)))
    (l p : string) (fs : list Finding) :
  entry (sort_every_bucket tree) l p = Some fs → sort_findings fs = fs.
Proof.
  unfold entry, sort_every_bucket. rewrite lookup_fmap.
  destruct (tree !! l) as [inner|]; simpl; [|done].
  rewrite lookup_fmap. destruct (inner !! p) as [fs0|]; simpl; [|done].
  intros [= <-]. apply sort_findings_idemp.
Qed.

(** X4. The first call of [render] on a tree the aggregator built brings
    the tree to a fixed point: a second call, whatever iteration order it
    sees, leaves the tree exactly as the first call left it. *)
Theorem render_twice_tree_fixed (F : list Finding) (ord1 ord2 : MapOrder) :
  valid_order ord1 (newFindingsTree F) →
  tree_after_render ord2 (tree_after_render ord1 (newFindingsTree F)) =
  tree_after_render ord1 (newFindingsTree F).
Proof.
  intros Hord. rewrite (tree_after_render_built F ord1 Hord).
  unfold tree_after_render. rewrite render_walk_spec; simpl. f_equal.
  apply sort_visited_sorted, sort_every_bucket_sorted.
Qed.

Lemma render_twice_tree_fixed_witness :
  tree_after_render order_one_bucket
    (tree_after_render order_one_bucket (newFindingsTree one_bucket)) =
  tree_after_render order_one_bucket (newFindingsTree one_bucket).
Proof.
  apply (render_twice_tree_fixed one_bucket order_one_bucket order_one_bucket).
  apply (bool_decide_unpack _). vm_compute. exact I.
Defined.

(** ** Tree connectors *)

Lemma read_connector_findings (verticalLine : string) (fs : list Finding)
    (ms : list string) (res : list (string * list string)) :
  foldr read_connector (ms, res) (FindingLine verticalLine <$> fs) =
  (replicate (length fs) verticalLine ++ ms, res).
Proof.
  induction fs as [|f fs IH]; [done|].
  rewrite fmap_cons. cbn [foldr]. by rewrite IH.
Qed.

Lemma read_connector_packages (verticalLine location : string)
    (init : gmap string (gmap string (list Finding)))
    (pkgs : list Package) (ms : list string) (res : list (string * list string)) :
  foldr read_connector (ms, res)
    (pkgs ≫= package_block verticalLine init location) =
  (replicate (length (pkgs ≫= package_block verticalLine init location))
     verticalLine ++ ms, res).
Proof.
  induction pkgs as [|pkg pkgs IH]; [done|].
  rewrite bind_cons, foldr_app, IH. unfold package_block.
  cbn [foldr]. rewrite read_connector_findings. cbn [read_connector fst snd].
  rewrite length_app, replicate_add. simpl. rewrite length_fmap.
  by rewrite <- (assoc_L (++)).
Qed.

Lemma read_connector_block (ord : MapOrder) (byID : gmap string Package)
    (init : gmap string (gmap string (list Finding))) (n i : nat)
    (location : string) (acc : list string * list (string * list string)) :
  ∃ k, foldr read_connector acc (location_block ord byID init n i location) =
       ([], ((if Nat.eqb i (n - 1) then "└── " else "├── "),
             replicate (S k) (if Nat.eqb i (n - 1) then " " else "│")) :: acc.2).
Proof.
  destruct acc as [ms res]. unfold location_block.
  destruct (Nat.eqb i (n - 1)); cbn [foldr]; rewrite foldr_app;
    cbn [foldr read_connector fst snd]; rewrite read_connector_packages;
    eexists; cbn [read_connector fst snd]; by rewrite <- replicate_S_end.
Qed.

Lemma connector_ok_block (n i k : nat) :
  connector_ok ((if Nat.eqb i (n - 1) then "└── " else "├── "),
                replicate (S k) (if Nat.eqb i (n - 1) then " " else "│")).
Proof.
  split; [done|]. destruct (Nat.eqb i (n - 1)); [right|left];
    (split; [done|]); by apply Forall_replicate.
Qed.

Lemma connectors_blocks_ok (ord : MapOrder) (byID : gmap string Package)
    (init : gmap string (gmap string (list Finding))) (n : nat)
    (locations : list string) :
  ∀ i acc, Forall connector_ok acc.2 →
  Forall connector_ok
    (foldr read_connector acc (location_blocks ord byID init n i locations)).2.
Proof.
  induction locations as [|location rest IH]; intros i acc Hacc; [done|].
  cbn [location_blocks]. rewrite foldr_app.
  destruct (read_connector_block ord byID init n i location
              (foldr read_connector acc (location_blocks ord byID init n (S i) rest)))
    as [k ->].
  simpl. constructor; [apply connector_ok_block|by apply IH].
Qed.

Lemma connectors_blocks_stems (ord : MapOrder) (byID : gmap string Package)
    (init : gmap string (gmap string (list Finding))) (n : nat)
    (locations : list string) :
  ∀ i acc, i + length locations = n →
  (foldr read_connector acc (location_blocks ord byID init n i locations)).2.*1 =
  replicate (length locations - 1) "├── " ++
  replicate (length locations `min` 1) "└── " ++ acc.2.*1.
Proof.
  induction locations as [|location rest IH]; intros i acc Hn; [done|].
  cbn [location_blocks]. rewrite foldr_app.
  destruct (read_connector_block ord byID init n i location
              (foldr read_connector acc (location_blocks ord byID init n (S i) rest)))
    as [k ->].
  cbn [snd fmap list_fmap fst]. simpl in Hn.
  rewrite (IH (S i) acc) by lia.
  destruct rest as [|location' rest]; simpl in *.
  - replace (n - 1) with i by lia. by rewrite Nat.eqb_refl.
  - destruct (Nat.eqb_spec i (n - 1)) as [Heq|_]; [lia|].
    by rewrite Nat.sub_0_r, Nat.min_0_r.
Qed.

Lemma last_location_blocks (ord : MapOrder) (byID : gmap string Package)
    (init : gmap string (gmap string (list Finding))) (n : nat)
    (locations : list string) :
  ∀ i, i + length locations = n → locations ≠ [] →
  last (location_blocks ord byID init n i locations) = Some (EndLine " ").
Proof.
  induction locations as [|location rest IH]; intros i Hn Hne; [done|].
  cbn [location_blocks]. simpl in Hn.
  destruct rest as [|location' rest].
  - simpl in *. rewrite app_nil_r. unfold location_block.
    replace (n - 1) with i by lia. rewrite Nat.eqb_refl.
    by rewrite app_comm_cons, last_snoc.
  - rewrite last_app, (IH (S i)); [done|simpl in *; lia|done].
Qed.

(** X5. Tree connectors.  The location lines of the report carry the
    branch connector, except the last, which carries the terminal
    connector; every line under a location line, the closing line
    included, carries one vertical marker: the bar under a branch
    connector and a space under the terminal one; and a report with at
    least one location ends with the closing line that holds a space. *)
Theorem tree_connectors (ord : MapOrder) (t : findingsTree) :
  (connectors_of (render_lines ord t)).*1 =
    replicate (length (locationKeys ord) - 1) "├── " ++
    replicate (length (locationKeys ord) `min` 1) "└── " ∧
  Forall connector_ok (connectors_of (render_lines ord t)) ∧
  (locationKeys ord ≠ [] → last (render_lines ord t) = Some (EndLine " ")).
Proof.
  unfold connectors_of, render_lines. rewrite render_walk_spec; simpl.
  assert (length (sort_Strings (locationKeys ord)) = length (locationKeys ord))
    as Hlen by by rewrite sort_Strings_Permutation.
  split_and!.
  - rewrite connectors_blocks_stems by done. simpl.
    by rewrite app_nil_r, Hlen.
  - by apply connectors_blocks_ok.
  - intros Hne. apply last_location_blocks; [done|].
    intros Hnil. rewrite Hnil in Hlen. by destruct (locationKeys ord).
Qed.

(** ** What the report of an aggregated tree contains *)

Lemma bind_perm_ext {A B : Type} (f g : A → list B) (l : list A) :
  (∀ x, x ∈ l → f x ≡ₚ g x) → l ≫= f ≡ₚ l ≫= g.
Proof.
  induction l as [|x l IH]; intros H; [done|].
  rewrite !bind_cons, (H x) by apply list_elem_of_here.
  rewrite IH; [done|]. intros y Hy. apply H. by apply list_elem_of_further.
Qed.

Lemma bind_length_ext {A B C : Type} (f : A → list B) (g : A → list C) (l : list A) :
  (∀ x, x ∈ l → length (f x) = length (g x)) → length (l ≫= f) = length (l ≫= g).
Proof.
  induction l as [|x l IH]; intros H; [done|].
  rewrite !bind_cons, !length_app, (H x) by apply list_elem_of_here.
  rewrite IH; [done|]. intros y Hy. apply H. by apply list_elem_of_further.
Qed.

(** Going through the keys of a map and reading each is going through
    its values. *)
Lemma keys_bind_flat {V B : Type} `{!Inhabited V} (g : V → list B)
    (m : gmap string V) :
  keys_of m ≫= (λ k, g (m !!! k)) = flat_values g m.
Proof.
  unfold keys_of, flat_values.
  assert (Forall (λ kv, m !! kv.1 = Some kv.2) (map_to_list m)) as Hall.
  { apply Forall_forall. intros [k v] Hin. by apply elem_of_map_to_list. }
  induction Hall as [|[k v] kvs Hk _ IH]; [done|].
  rewrite !fmap_cons, !bind_cons, IH. simpl in *.
  by rewrite (lookup_total_correct _ _ _ Hk).
Qed.

Lemma line_kinds (lines : list line) :
  length lines =
  length (omap stem_of lines) + length (omap package_of lines) +
  length (omap finding_of lines) + length (omap end_of lines).
Proof.
  induction lines as [|[] lines IH]; csimpl; lia.
Qed.

Lemma omap_finding_lines (verticalLine : string) (fs : list Finding) :
  omap finding_of (FindingLine verticalLine <$> fs) = fs.
Proof. induction fs as [|f fs IH]; [done|]. csimpl. by rewrite IH. Qed.

Lemma omap_other_finding_lines {A : Type} (h : line → option A)
    (verticalLine : string) (fs : list Finding) :
  (∀ f, h (FindingLine verticalLine f) = None) →
  omap h (FindingLine verticalLine <$> fs) = [].
Proof.
  intros Hh. induction fs as [|f fs IH]; [done|]. csimpl. by rewrite Hh, IH.
Qed.

(** The lines of each kind in the blocks of the walk. *)
Lemma blocks_findings (ord : MapOrder) (byID : gmap string Package)
    (init : gmap string (gmap string (list Finding))) (n : nat)
    (locations : list string) :
  ∀ i, omap finding_of (location_blocks ord byID init n i locations) =
       locations ≫= λ location,
         packages_at ord byID location ≫= λ pkg,
           sort_findings ((init !!! location) !!! scan.Package.ID pkg).
Proof.
  induction locations as [|location rest IH]; intros i; [done|].
  cbn [location_blocks]. rewrite omap_app, IH, bind_cons. f_equal.
  unfold location_block.
  assert (∀ v pkgs,
    omap finding_of (pkgs ≫= package_block v init location) =
    pkgs ≫= λ pkg, sort_findings ((init !!! location) !!! scan.Package.ID pkg))
    as Hbody.
  { intros v pkgs. induction pkgs as [|pkg pkgs IHp]; [done|].
    rewrite !bind_cons, omap_app, IHp. unfold package_block. csimpl.
    by rewrite omap_finding_lines. }
  destruct (Nat.eqb i (n - 1)); csimpl;
    by rewrite omap_app, Hbody, app_nil_r.
Qed.

Lemma blocks_packages (ord : MapOrder) (byID : gmap string Package)
    (init : gmap string (gmap string (list Finding))) (n : nat)
    (locations : list string) :
  ∀ i, omap package_of (location_blocks ord byID init n i locations) =
       locations ≫= packages_at ord byID.
Proof.
  induction locations as [|location rest IH]; intros i; [done|].
  cbn [location_blocks]. rewrite omap_app, IH, bind_cons. f_equal.
  unfold location_block.
  assert (∀ v pkgs,
    omap package_of (pkgs ≫= package_block v init location) = pkgs) as Hbody.
  { intros v pkgs. induction pkgs as [|pkg pkgs IHp]; [done|].
    rewrite !bind_cons, omap_app, IHp. unfold package_block. csimpl.
    by rewrite omap_other_finding_lines. }
  destruct (Nat.eqb i (n - 1)); csimpl;
    by rewrite omap_app, Hbody, app_nil_r.
Qed.

Lemma blocks_stems_ends (ord : MapOrder) (byID : gmap string Package)
    (init : gmap string (gmap string (list Finding))) (n : nat)
    (locations : list string) :
  ∀ i, length (omap stem_of (location_blocks ord byID init n i locations)) =
         length locations ∧
       length (omap end_of (location_blocks ord byID init n i locations)) =
         length locations.
Proof.
  induction locations as [|location rest IH]; intros i; [done|].
  cbn [location_blocks]. rewrite !omap_app, !length_app.
  destruct (IH (S i)) as [-> ->]. unfold location_block.
  assert (∀ v pkgs,
    omap stem_of (pkgs ≫= package_block v init location) = [] ∧
    omap end_of (pkgs ≫= package_block v init location) = []) as Hbody.
  { intros v pkgs. induction pkgs as [|pkg pkgs [IH1 IH2]]; [done|].
    rewrite !bind_cons, !omap_app, IH1, IH2. unfold package_block. csimpl.
    by rewrite !omap_other_finding_lines. }
  destruct (Nat.eqb i (n - 1)); csimpl; rewrite !omap_app;
    match goal with
    | |- context [packages_at _ _ _ ≫= package_block ?v _ _] =>
        destruct (Hbody v (packages_at ord byID location)) as [-> ->]
    end; done.
Qed.

(** With a valid order, the packages the walk lists under a location of
    an aggregated tree are the recorded packages of the location's IDs. *)
Lemma packages_at_built (F : list Finding) (ord : MapOrder) (location : string)
    (inner : gmap string (list Finding)) :
  valid_order ord (newFindingsTree F) →
  findingsByPackageByLocation (newFindingsTree F) !! location = Some inner →
  packages_at ord (packagesByID (newFindingsTree F)) location ≡ₚ
    (λ id, packagesByID (newFindingsTree F) !!! id) <$> keys_of inner.
Proof.
  intros [_ Hpkgs] Hinner. unfold packages_at.
  rewrite SliceStable_Permutation.
  by rewrite (map_Forall_lookup_1 _ _ _ _ Hpkgs Hinner).
Qed.

Lemma recorded_package_ID_at (F : list Finding) (location id : string)
    (inner : gmap string (list Finding)) :
  findingsByPackageByLocation (newFindingsTree F) !! location = Some inner →
  id ∈ keys_of inner →
  scan.Package.ID (packagesByID (newFindingsTree F) !!! id) = id.
Proof.
  intros Hinner Hid%elem_of_keys_of.
  assert (is_Some (entry (findingsByPackageByLocation (newFindingsTree F))
                     location id)) as He
    by (unfold entry; by rewrite Hinner).
  destruct (entry_newFindingsTree F location id He) as (f & Hin & _ & Hp).
  by apply (recorded_package_ID F id f).
Qed.

Lemma finding_lines_built (F : list Finding) (ord : MapOrder) :
  valid_order ord (newFindingsTree F) →
  omap finding_of (render_lines ord (newFindingsTree F)) ≡ₚ F.
Proof.
  intros Hord. unfold render_lines. rewrite render_walk_spec; simpl.
  rewrite blocks_findings.
  rewrite sort_Strings_Permutation, (proj1 Hord).
  trans (all_findings (newFindingsTree F));
    [|apply all_findings_newFindingsTree].
  rewrite all_findings_flat, <- (keys_bind_flat (flat_values id)).
  apply bind_perm_ext. intros location Hloc.
  apply elem_of_keys_of in Hloc as [inner Hinner].
  rewrite (packages_at_built F ord location inner Hord Hinner).
  rewrite (lookup_total_correct _ _ _ Hinner).
  rewrite list_fmap_bind, <- (keys_bind_flat id inner).
  apply bind_perm_ext. intros pid Hpid. simpl.
  rewrite (recorded_package_ID_at F location pid inner Hinner Hpid).
  apply SliceStable_Permutation.
Qed.

(** X6. Every finding is rendered exactly once: with a valid iteration
    order, the finding lines of the report of an aggregated tree are a
    rearrangement of the input findings, nothing dropped and nothing
    repeated; in particular there are as many finding lines as findings. *)
Theorem findings_rendered_once (F : list Finding) (ord : MapOrder) :
  valid_order ord (newFindingsTree F) →
  omap finding_of (render_lines ord (newFindingsTree F)) ≡ₚ F ∧
  length (omap finding_of (render_lines ord (newFindingsTree F))) = length F.
Proof.
  intros Hord. pose proof (finding_lines_built F ord Hord) as H.
  split; [done|]. by rewrite H.
Qed.

Lemma findings_rendered_once_witness :
  omap finding_of (render_lines order_one_bucket (newFindingsTree one_bucket)) ≡ₚ
  one_bucket.
Proof.
  apply (findings_rendered_once one_bucket order_one_bucket).
  apply (bool_decide_unpack _). vm_compute. exact I.
Defined.

Lemma all_buckets_flat (t : findingsTree) :
  all_buckets t = flat_values buckets_of (findingsByPackageByLocation t).
Proof.
  unfold all_buckets, flat_values.
  induction ((map_to_list (findingsByPackageByLocation t)).*2) as [|m ms IH];
    [done|].
  by rewrite fmap_cons, bind_cons, <- IH.
Qed.

(** X7. The size of the report: with a valid iteration order, the report
    of an aggregated tree has one package line per bucket and two lines
    per location (the location line and the closing line), so its number
    of lines is twice the number of locations plus the number of buckets
    plus the number of findings. *)
Theorem report_size (F : list Finding) (ord : MapOrder) :
  valid_order ord (newFindingsTree F) →
  length (omap package_of (render_lines ord (newFindingsTree F))) =
    length (all_buckets (newFindingsTree F)) ∧
  length (render_lines ord (newFindingsTree F)) =
    2 * size (findingsByPackageByLocation (newFindingsTree F)) +
    length (all_buckets (newFindingsTree F)) + length F.
Proof.
  intros Hord.
  assert (length (omap package_of (render_lines ord (newFindingsTree F))) =
          length (all_buckets (newFindingsTree F))) as Hpk.
  { unfold render_lines. rewrite render_walk_spec; simpl.
    rewrite blocks_packages, sort_Strings_Permutation, (proj1 Hord).
    rewrite all_buckets_flat, <- (keys_bind_flat buckets_of).
    apply bind_length_ext. intros location Hloc.
    apply elem_of_keys_of in Hloc as [inner Hinner].
    rewrite (packages_at_built F ord location inner Hord Hinner).
    rewrite (lookup_total_correct _ _ _ Hinner).
    unfold buckets_of, keys_of. by rewrite !length_fmap. }
  split; [done|].
  rewrite line_kinds, Hpk, (finding_lines_built F ord Hord).
  unfold render_lines. rewrite render_walk_spec; simpl.
  destruct (blocks_stems_ends ord (packagesByID (newFindingsTree F))
              (findingsByPackageByLocation (newFindingsTree F))
              (length (sort_Strings (locationKeys ord))) (sort_Strings (locationKeys ord)) 0)
    as [-> ->].
  rewrite sort_Strings_Permutation, (proj1 Hord).
  unfold keys_of. rewrite length_fmap, length_map_to_list. lia.
Qed.

Lemma report_size_witness :
  length (render_lines order_one_bucket (newFindingsTree one_bucket)) = 6.
Proof.
  destruct (report_size one_bucket order_one_bucket) as [_ ->].
  - apply (bool_decide_unpack _). vm_compute. exact I.
  - vm_compute. reflexivity.
Defined.

Lemma key_has_finding (F : list Finding) (l p : string)
    (inner : gmap string (list Finding)) :
  findingsByPackageByLocation (newFindingsTree F) !! l = Some inner →
  p ∈ keys_of inner →
  ∃ f, f ∈ F ∧ loc_of f = l ∧ pid_of f = p.
Proof.
  intros Hl Hp%elem_of_keys_of. apply entry_newFindingsTree.
  unfold entry. by rewrite Hl.
Qed.

Lemma location_has_package (F : list Finding) (l : string)
    (inner : gmap string (list Finding)) :
  findingsByPackageByLocation (newFindingsTree F) !! l = Some inner →
  keys_of inner ≠ [].
Proof.
  intros Hl Hnil.
  assert (l ∈ dom (findingsByPackageByLocation (newFindingsTree F))) as Hd
    by by apply elem_of_dom_2 in Hl.
  rewrite dom_newFindingsTree, elem_of_list_to_set, list_elem_of_fmap in Hd.
  destruct Hd as (f & -> & Hin).
  destruct (entry_of_finding F f Hin) as [fs Hfs]. unfold entry in Hfs.
  rewrite Hl in Hfs. simpl in Hfs.
  assert (pid_of f ∈ keys_of inner) as Hk by (apply elem_of_keys_of; eauto).
  rewrite Hnil in Hk. by apply not_elem_of_nil in Hk.
Qed.

(** X8. Aggregating and then rendering, read off the input.  With a valid
    iteration order, every location node of the report of an aggregated
    tree has at least one package node and no two of its package nodes
    carry the same package ID; every package node has at least one
    vulnerability line, its lines are the input findings with the node's
    location and the package's ID, stably sorted by vulnerability ID, and
    the package shown is the package value of the last input finding with
    that ID, at whatever location that finding is. *)
Theorem report_of_input (F : list Finding) (ord : MapOrder)
    (location : string) (pkgs : list (Package * list Finding)) :
  valid_order ord (newFindingsTree F) →
  (location, pkgs) ∈ nodes_of (render_lines ord (newFindingsTree F)) →
  pkgs ≠ [] ∧
  NoDup (scan.Package.ID <$> pkgs.*1) ∧
  ∀ pkg fs, (pkg, fs) ∈ pkgs →
    fs ≠ [] ∧
    fs = sort_findings
           (filter (λ f, loc_of f = location ∧ pid_of f = scan.Package.ID pkg) F) ∧
    Some pkg = scan.Finding.Package <$>
                 last (filter (λ f, pid_of f = scan.Package.ID pkg) F).
Proof.
  intros Hord. rewrite nodes_of_render. unfold report_nodes.
  intros (l & Heq & Hin)%list_elem_of_fmap. injection Heq as <- ->.
  rewrite sort_Strings_Permutation, (proj1 Hord) in Hin.
  apply elem_of_keys_of in Hin as [inner Hinner].
  pose proof (packages_at_built F ord location inner Hord Hinner) as Hperm.
  change (packages_at ord (packagesByID (newFindingsTree F)) location) with
    (sorted_packages ord (newFindingsTree F) location) in Hperm.
  rewrite package_nodes_fst.
  assert (scan.Package.ID <$>
            ((λ id, packagesByID (newFindingsTree F) !!! id) <$> keys_of inner)
          = keys_of inner) as Hids.
  { rewrite <- list_fmap_compose. rewrite <- (list_fmap_id (keys_of inner)) at 2.
    apply list_fmap_ext. intros i id Hid%list_elem_of_lookup_2. simpl.
    by apply (recorded_package_ID_at F location id inner). }
  split_and!.
  - intros Hnil. apply fmap_nil_inv in Hnil. rewrite Hnil in Hperm.
    apply Permutation_nil_l in Hperm. symmetry in Hperm.
    apply fmap_nil_inv in Hperm.
    by apply (location_has_package F location inner).
  - rewrite Hperm, Hids. apply NoDup_fst_map_to_list.
  - intros pkg fs (pkg' & Heq & Hpkg)%list_elem_of_fmap.
    unfold package_node in Heq. simplify_eq.
    rewrite Hperm in Hpkg. apply list_elem_of_fmap in Hpkg as (id & -> & Hid).
    rewrite (recorded_package_ID_at F location id inner Hinner Hid).
    destruct (key_has_finding F location id inner Hinner Hid)
      as (f & Hf & Hfl & Hfp).
    rewrite bucket_newFindingsTree. split_and!.
    + intros Hnil.
      assert (f ∈ sort_findings
                    (filter (λ f, loc_of f = location ∧ pid_of f = id) F)) as Hin.
      { rewrite SliceStable_Permutation. by apply list_elem_of_filter. }
      rewrite Hnil in Hin. by apply not_elem_of_nil in Hin.
    + done.
    + rewrite lookup_total_alt, packagesByID_newFindingsTree.
      destruct (last (filter (λ f, pid_of f = id) F)) as [f'|] eqn:Hlast; [done|].
      apply last_None in Hlast.
      assert (f ∈ filter (λ f, pid_of f = id) F) as Hin
        by by apply list_elem_of_filter.
      rewrite Hlast in Hin. by apply not_elem_of_nil in Hin.
Qed.

Lemma report_of_input_witness :
  let pkg := scan.Package.mk "p" "lib" "1.0" "apk" "/bin/a" in
  let fs := [scan.Finding.mk pkg (scan.Vulnerability.mk "GHSA-1" [] "Low" "1.2");
             scan.Finding.mk pkg (scan.Vulnerability.mk "GHSA-2" [] "High" "1.1");
             scan.Finding.mk pkg (scan.Vulnerability.mk "GHSA-2" [] "High" "1.3")] in
  NoDup (scan.Package.ID <$> [(pkg, fs)].*1).
Proof.
  intros pkg fs.
  apply (report_of_input one_bucket order_one_bucket "/bin/a" [(pkg, fs)]).
  - apply (bool_decide_unpack _). vm_compute. exact I.
  - vm_compute. apply list_elem_of_here.
Defined.

(** ** The empty report *)

Lemma append_eq_empty (a b : string) : a +:+ b = "" → a = "" ∧ b = "".
Proof. by destruct a. Qed.

Lemma Join_two_nonempty (x y : string) (rest : list string) :
  Join (x :: y :: rest) newline ≠ "".
Proof.
  cbn [Join]. intros H. apply append_eq_empty in H as [_ H]. done.
Qed.

Lemma location_blocks_shape (ord : MapOrder) (byID : gmap string Package)
    (init : gmap string (gmap string (list Finding))) (n i : nat)
    (locations : list string) :
  locations ≠ [] →
  ∃ ln1 ln2 rest,
    location_blocks ord byID init n i locations = ln1 :: ln2 :: rest.
Proof.
  destruct locations as [|location locations]; [done|]. intros _.
  cbn [location_blocks]. unfold location_block.
  destruct (Nat.eqb i (n - 1));
    (destruct (packages_at ord byID location ≫= _) as [|ln body]; simpl; eauto).
Qed.

(** X9. The report is empty exactly for the empty input: with a valid
    iteration order, rendering an aggregated tree yields no line, and the
    empty text, if and only if there was no finding; for any finding the
    text has at least two lines. *)
Theorem render_empty_iff (F : list Finding) (ord : MapOrder)
    (Render : Style → string → string) (Link : string → string → string)
    (termSupportsHyperlinks : bool) :
  valid_order ord (newFindingsTree F) →
  (render_lines ord (newFindingsTree F) = [] ↔ F = []) ∧
  (render Render Link termSupportsHyperlinks ord (newFindingsTree F) = "" ↔ F = []) ∧
  (F ≠ [] → 2 ≤ length (render_lines ord (newFindingsTree F))).
Proof.
  intros Hord.
  pose proof (location_keys_newFindingsTree F ord Hord) as Hkeys.
  destruct F as [|f F].
  - assert (locationKeys ord = []) as Hnil.
    { apply Permutation_nil_r. rewrite Hkeys. simpl.
      by rewrite elements_empty. }
    assert (render_lines ord (newFindingsTree []) = []) as Hlines.
    { unfold render_lines. rewrite render_walk_spec; simpl. by rewrite Hnil. }
    unfold render. rewrite Hlines. by split_and!.
  - assert (sort_Strings (locationKeys ord) ≠ []) as Hne.
    { intros Hnil.
      assert (loc_of f ∈ sort_Strings (locationKeys ord)) as Hin.
      { rewrite sort_Strings_Permutation, Hkeys, elem_of_elements.
        apply elem_of_list_to_set. csimpl. apply list_elem_of_here. }
      rewrite Hnil in Hin. by apply not_elem_of_nil in Hin. }
    unfold render, render_lines. rewrite render_walk_spec; simpl.
    destruct (location_blocks_shape ord (packagesByID (newFindingsTree (f :: F)))
                (findingsByPackageByLocation (newFindingsTree (f :: F)))
                (length (sort_Strings (locationKeys ord))) 0 _ Hne)
      as (ln1 & ln2 & rest & ->).
    split_and!.
    + split; intros; done.
    + split; [|done]. intros H. csimpl in H. by apply Join_two_nonempty in H.
    + intros _. simpl. lia.
Qed.

Lemma render_empty_iff_witness :
  render plain_Render osc8_Link false (mkOrder [] (λ _, [])) (newFindingsTree []) = "".
Proof.
  apply (render_empty_iff [] (mkOrder [] (λ _, [])) plain_Render osc8_Link false).
  - apply (bool_decide_unpack _). vm_compute. exact I.
  - reflexivity.
Defined.

(** ** The command loop: outcomes, resources and composition *)

Lemma closed_snoc (tr : list event) (ev : event) :
  closed (tr ++ [ev]) = closed tr ++ closed [ev].
Proof. apply omap_app. Qed.


Ltac trace_simpl :=
  repeat (rewrite ?opened_snoc, ?scanned_snoc, ?closed_snoc; simpl);
  rewrite ?app_nil_r, <- ?(assoc_L (++)).

Section Scan_outcomes.
Variable World File E : Type.
Variable os_Open : string → World → World * (File + E).
Variable scan_APK : File → World → World * (list Finding + E).
Variable file_Close : File → World → World.
Variable path_Base : string → string.
Variable iteration : World → MapOrder.
Variable Render : Style → string → string.
Variable Link : string → string → string.
Variable termSupportsHyperlinks : bool.

Local Abbreviation run :=
  (RunE World File E os_Open scan_APK file_Close path_Base iteration
        Render Link termSupportsHyperlinks).

(** X10. What a run of the loop has done when it returns, by its result.
    On [nil] every argument was opened, scanned and closed.  The findings
    error is returned only with the require-zero flag set, right after an
    argument that was opened, scanned and closed.  When the scanner fails
    on an argument the loop returns with that argument's file opened and
    not closed: the arguments before it were closed, it was not.  When an
    open fails nothing is scanned or closed for that argument.  In each
    case no later argument is touched. *)
Theorem RunE_outcomes (p : scanParams) (args : list string) :
  ∀ (st st' : state World) (r : option (error E)),
  run p args st = (st', r) →
  match r with
  | None =>
      opened (trace World st') = opened (trace World st) ++ args ∧
      scanned (trace World st') = scanned (trace World st) ++ args ∧
      closed (trace World st') = closed (trace World st) ++ args
  | Some ErrFindingsFound =>
      requireZeroFindings p = true ∧
      ∃ pre a post, args = pre ++ a :: post ∧
        opened (trace World st') = opened (trace World st) ++ pre ++ [a] ∧
        scanned (trace World st') = scanned (trace World st) ++ pre ++ [a] ∧
        closed (trace World st') = closed (trace World st) ++ pre ++ [a]
  | Some (ErrScanner _) =>
      ∃ pre a post, args = pre ++ a :: post ∧
        opened (trace World st') = opened (trace World st) ++ pre ++ [a] ∧
        scanned (trace World st') = scanned (trace World st) ++ pre ++ [a] ∧
        closed (trace World st') = closed (trace World st) ++ pre
  | Some (ErrOpenFailed _) =>
      ∃ pre a post, args = pre ++ a :: post ∧
        opened (trace World st') = opened (trace World st) ++ pre ++ [a] ∧
        scanned (trace World st') = scanned (trace World st) ++ pre ∧
        closed (trace World st') = closed (trace World st) ++ pre
  end.
Proof.
  induction args as [|a args IH]; intros st st' r Hrun; simpl in Hrun.
  - simplify_eq. by rewrite !app_nil_r.
  - destruct (os_Open a (world World st)) as [w [file|err]]; simpl in Hrun.
    2:{ simplify_eq. exists [], a, args. simpl. by trace_simpl. }
    destruct (scan_APK file w) as [w' [fs|err]]; simpl in Hrun.
    2:{ simplify_eq. exists [], a, args. simpl. by trace_simpl. }
    destruct (requireZeroFindings p && (0 <? length fs)) eqn:Hflag.
    + simplify_eq. apply andb_true_iff in Hflag as [Hp _]. split; [done|].
      exists [], a, args. destruct (length fs =? 0); simpl; by trace_simpl.
    + apply IH in Hrun.
      assert (∀ st1 : state World,
        st1 = (if length fs =? 0
               then emit World (EvPrintln "✅ No vulnerabilities found")
                      (file_Close file w')
                      (emit World (EvClose a) (file_Close file w')
                         (emit World (EvScan a) w'
                            (emit World (EvPrintln (path_Base a)) w
                               (emit World (EvOpen a) w st))))
               else emit World
                      (EvPrintln (render Render Link termSupportsHyperlinks
                                    (iteration (file_Close file w'))
                                    (newFindingsTree fs)))
                      (file_Close file w')
                      (emit World (EvClose a) (file_Close file w')
                         (emit World (EvScan a) w'
                            (emit World (EvPrintln (path_Base a)) w
                               (emit World (EvOpen a) w st))))) →
        opened (trace World st1) = opened (trace World st) ++ [a] ∧
        scanned (trace World st1) = scanned (trace World st) ++ [a] ∧
        closed (trace World st1) = closed (trace World st) ++ [a]) as Hstep.
      { intros st1 ->. destruct (length fs =? 0); simpl; by trace_simpl. }
      simpl in Hrun.
      match type of Hrun with
      | context [trace World ?s1] =>
          destruct (Hstep s1 eq_refl) as (Ho & Hs & Hc)
      end.
      rewrite Ho, Hs, Hc in Hrun. clear Hstep Ho Hs Hc.
      destruct r as [[e|e|]|].
      * destruct Hrun as (pre & b & post & -> & Ho & Hs & Hc).
        exists (a :: pre), b, post. rewrite Ho, Hs, Hc.
        by rewrite <- !(assoc_L (++)).
      * destruct Hrun as (pre & b & post & -> & Ho & Hs & Hc).
        exists (a :: pre), b, post. rewrite Ho, Hs, Hc.
        by rewrite <- !(assoc_L (++)).
      * destruct Hrun as (Hp & pre & b & post & -> & Ho & Hs & Hc).
        split; [done|].
        exists (a :: pre), b, post. rewrite Ho, Hs, Hc.
        by rewrite <- !(assoc_L (++)).
      * destruct Hrun as (Ho & Hs & Hc). rewrite Ho, Hs, Hc.
        by rewrite <- !(assoc_L (++)).
Qed.

Lemma RunE_trace_grows (p : scanParams) (args : list string) :
  ∀ st : state World, trace World st `prefix_of` trace World (run p args st).1.
Proof.
  induction args as [|a args IH]; intros st; simpl; [done|].
  destruct (os_Open a (world World st)) as [w [file|err]]; simpl;
    [|by apply prefix_app_r].
  destruct (scan_APK file w) as [w' [fs|err]]; simpl.
  2:{ rewrite <- !(assoc_L (++)). by apply prefix_app_r. }
  destruct (requireZeroFindings p && (0 <? length fs)).
  - destruct (length fs =? 0); simpl;
      rewrite <- !(assoc_L (++)); by apply prefix_app_r.
  - etrans; [|apply IH].
    destruct (length fs =? 0); simpl;
      rewrite <- !(assoc_L (++)); by apply prefix_app_r.
Qed.

Lemma RunE_error_absorbs (p : scanParams) (pre rest : list string) :
  ∀ (st st1 : state World) (e : error E),
  run p pre st = (st1, Some e) → run p (pre ++ rest) st = (st1, Some e).
Proof.
  induction pre as [|a pre IH]; intros st st1 e Hrun; [done|].
  simpl in Hrun |- *.
  destruct (os_Open a (world World st)) as [w [file|err]]; [|done].
  simpl in Hrun |- *.
  destruct (scan_APK file w) as [w' [fs|err]]; [|done].
  simpl in Hrun |- *.
  destruct (requireZeroFindings p && (0 <? length fs)); [done|].
  by apply IH.
Qed.

(** X11. The loop composes over concatenation of its arguments: when the
    run on [pre] returns [nil], the run on [pre ++ rest] is the run on
    [rest] from the state the first run ended in; when the run on [pre]
    returns an error, the run on [pre ++ rest] ends in the same state with
    the same error, whatever [rest] is. *)
Theorem RunE_app (p : scanParams) (pre rest : list string)
    (st st1 : state World) (r : option (error E)) :
  run p pre st = (st1, r) →
  run p (pre ++ rest) st =
  match r with
  | None => run p rest st1
  | Some e => (st1, Some e)
  end.
Proof.
  intros Hrun. destruct r as [e|].
  - by apply RunE_error_absorbs.
  - by apply (RunE_prefix World File E os_Open scan_APK file_Close path_Base
                iteration Render Link termSupportsHyperlinks p pre st st1).
Qed.

(** X12. The require-zero flag only cuts a run short: the trace of the
    run with the flag set is a prefix of the trace of the run without it
    from the same state, and unless the flagged run returns the findings
    error the two runs end in the same state with the same result. *)
Theorem require_zero_only_cuts_short (args : list string) :
  ∀ st : state World,
  trace World (run (mkParams true) args st).1 `prefix_of`
    trace World (run (mkParams false) args st).1 ∧
  ((run (mkParams true) args st).2 ≠ Some ErrFindingsFound →
   run (mkParams true) args st = run (mkParams false) args st).
Proof.
  induction args as [|a args IH]; intros st; simpl; [done|].
  destruct (os_Open a (world World st)) as [w [file|err]]; simpl; [|done].
  destruct (scan_APK file w) as [w' [fs|err]]; simpl; [|done].
  destruct (0 <? length fs); simpl; [|apply IH].
  split; [|done]. apply RunE_trace_grows.
Qed.

End Scan_outcomes.

Lemma RunE_outcomes_witness :
  closed (trace nat (run_example true ["a.apk"; "b.apk"; "c.apk"]).1) =
    ["a.apk"; "b.apk"].
Proof.
  pose proof (RunE_outcomes nat string string open_any scan_b close_count id
                fixed_iteration plain_Render osc8_Link false (mkParams true)
                ["a.apk"; "b.apk"; "c.apk"] (mkState nat 0 [])
                (run_example true ["a.apk"; "b.apk"; "c.apk"]).1
                (Some ErrFindingsFound) eq_refl) as (_ & pre & a & post & _).
  vm_compute. reflexivity.
Defined.

Lemma RunE_app_witness :
  run_example false (["a.apk"] ++ ["b.apk"]) =
  RunE nat string string open_any scan_b close_count id fixed_iteration
       plain_Render osc8_Link false (mkParams false) ["b.apk"]
       (run_example false ["a.apk"]).1.
Proof.
  apply (RunE_app nat string string open_any scan_b close_count id
           fixed_iteration plain_Render osc8_Link false (mkParams false)
           ["a.apk"] ["b.apk"] (mkState nat 0 []) (run_example false ["a.apk"]).1 None).
  reflexivity.
Defined.


(** ** The severity badge *)

(** X14. The severity badge.  A severity outside the five recognised
    values (the match is exact, so a different capitalisation is
    unrecognised) is rendered as its literal text, with no style applied;
    each recognised value is passed unchanged to [Render] with its own
    colour, the five colours being pairwise distinct; and where [Render]
    returns its text as it is, the badge is the severity string. *)
Theorem renderSeverity_table (Render : Style → string → string) (severity : string) :
  (severity ∉ ["Negligible"; "Low"; "Medium"; "High"; "Critical"] →
   renderSeverity Render severity = severity) ∧
  renderSeverity Render "Negligible" = Render (NewStyle "#999999") "Negligible" ∧
  renderSeverity Render "Low" = Render (NewStyle "#00ff00") "Low" ∧
  renderSeverity Render "Medium" = Render (NewStyle "#ffff00") "Medium" ∧
  renderSeverity Render "High" = Render (NewStyle "#ff9900") "High" ∧
  renderSeverity Render "Critical" = Render (NewStyle "#ff0000") "Critical" ∧
  NoDup [styleNegligible; styleLow; styleMedium; styleHigh; styleCritical] ∧
  ((∀ style text, Render style text = text) →
   renderSeverity Render severity = severity).
Proof.
  split_and!; try reflexivity.
  - intros Hnot. unfold renderSeverity.
    repeat match goal with
    | |- context [String.eqb severity ?s] =>
        destruct (String.eqb_spec severity s) as [->|_];
          [exfalso; apply Hnot; repeat constructor|]
    end.
    done.
  - repeat (apply NoDup_cons; split;
              [rewrite ?elem_of_cons, elem_of_nil; intros H;
               repeat destruct H as [H|H]; discriminate H || done|]).
    apply NoDup_nil_2.
  - intros Hplain. unfold renderSeverity.
    repeat match goal with
    | |- context [if ?b then _ else _] => destruct b
    end; by rewrite ?Hplain.
Qed.

Lemma renderSeverity_table_witness :
  renderSeverity plain_Render "high" = "high" ∧
  renderSeverity colour_Render "Unknown" = "Unknown".
Proof.
  split.
  - apply (proj1 (renderSeverity_table plain_Render "high")). intros H.
    repeat (apply elem_of_cons in H as [H|H]; [discriminate H|]).
    by apply elem_of_nil in H.
  - apply (proj1 (renderSeverity_table colour_Render "Unknown")). intros H.
    repeat (apply elem_of_cons in H as [H|H]; [discriminate H|]).
    by apply elem_of_nil in H.
Defined.

(** ** The fix annotation determines the fixed version *)

(** X15. Two vulnerabilities have the same fix annotation only if they
    have the same fixed version: the annotation is empty for the empty
    version alone, and otherwise carries the version verbatim. *)
Theorem renderFixedIn_inj (v1 v2 : Vulnerability) :
  renderFixedIn v1 = renderFixedIn v2 →
  scan.Vulnerability.FixedVersion v1 = scan.Vulnerability.FixedVersion v2.
Proof.
  unfold renderFixedIn.
  destruct (String.eqb_spec (scan.Vulnerability.FixedVersion v1) "") as [->|_],
           (String.eqb_spec (scan.Vulnerability.FixedVersion v2) "") as [->|_];
    try done.
  apply (inj (String.append " fixed in ")).
Qed.

Lemma renderFixedIn_inj_witness :
  scan.Vulnerability.FixedVersion (scan.Vulnerability.mk "CVE-1" [] "High" "1.2.3") =
  scan.Vulnerability.FixedVersion (scan.Vulnerability.mk "CVE-2" ["x"] "Low" "1.2.3").
Proof.
  apply (renderFixedIn_inj (scan.Vulnerability.mk "CVE-1" [] "High" "1.2.3")
           (scan.Vulnerability.mk "CVE-2" ["x"] "Low" "1.2.3")).
  reflexivity.
Defined.

(** ** Evaluations of the properties above *)

Lemma newFindingsTree_wellformed_witness :
  dom (packagesByID (newFindingsTree two_locations)) = {["p1"; "p2"]} ∧
  scan.Package.ID (scan.Package.mk "p1" "bar" "1.0" "apk" "/bin/a") = "p1".
Proof.
  destruct (newFindingsTree_wellformed two_locations) as (_ & Hdom & Hid & _).
  split.
  - rewrite Hdom. vm_compute. reflexivity.
  - apply Hid. vm_compute. reflexivity.
Defined.

Lemma tree_connectors_witness :
  last (render_lines order_b_a (newFindingsTree two_locations)) = Some (EndLine " ") ∧
  (connectors_of (render_lines order_b_a (newFindingsTree two_locations))).*1 =
    ["├── "; "└── "].
Proof.
  destruct (tree_connectors order_b_a (newFindingsTree two_locations))
    as (Hstems & _ & Hlast).
  split; [by apply Hlast|]. by rewrite Hstems.
Defined.

Lemma require_zero_only_cuts_short_witness :
  run_example true ["a.apk"; "c.apk"] = run_example false ["a.apk"; "c.apk"].
Proof.
  apply (require_zero_only_cuts_short nat string string open_any scan_b close_count
           id fixed_iteration plain_Render osc8_Link false ["a.apk"; "c.apk"]
           (mkState nat 0 [])).
  vm_compute. discriminate.
Defined.
